(** * Segmented downloader of gallery-dl: model and verified properties

    Shallow embedding of [gallery_dl/downloader/segmented.py].

    Python integers are unbounded, so offsets and sizes are [Z]; Python's
    floor division [//] is [Z.div].  A [Segment] object is identified by its
    position in [DownloadManager.segments]: the list is append-only and a
    segment is never removed, so an object reference is an index.  A block
    guarded by [with self.lock] is one atomic step of the model. *)

From Stdlib Require Import ZArith Lia String Ascii.
From stdpp Require Import gmap strings list fin_maps sorting.

Local Open Scope Z_scope.

(** ** Segment *)

Inductive SegmentStatus : Set :=
| PENDING
| DOWNLOADING
| COMPLETED
| FAILED.

#[global] Instance SegmentStatus_eq_dec : EqDecision SegmentStatus.
Proof. solve_decision. Defined.

(** The attributes of [class Segment]; the per-segment lock has no content
    of its own and is accounted for by the atomicity of the steps. *)
Record Segment : Set := Build_Segment_raw {
  seg_start : Z;
  seg_end : Z;
  seg_size : Z;
  seg_status : SegmentStatus
}.

(** [Segment.__init__(start, end, status=SegmentStatus.PENDING)] *)
Definition Segment_init (start end_ : Z) (st : SegmentStatus) : Segment :=
  {| seg_start := start;
     seg_end := end_;
     seg_size := end_ - start + 1;
     seg_status := st |}.

(** The default value of the [status] argument. *)
Definition Segment_default_status : SegmentStatus := PENDING.

Definition set_status (st : SegmentStatus) (s : Segment) : Segment :=
  {| seg_start := seg_start s;
     seg_end := seg_end s;
     seg_size := seg_size s;
     seg_status := st |}.

(** ** Initial partitioning *)

(** [range(n)] for an integer [n]; empty when [n <= 0]. *)
Definition range (n : Z) : list Z := Z.of_nat <$> seq 0 (Z.to_nat n).

(** One iteration of the loop in [_create_initial_segments]. *)
Definition initial_segment (file_size num_threads segment_size i : Z) : Segment :=
  let start := i * segment_size in
  let end_ := start + segment_size - 1 in
  let end_ := if i =? num_threads - 1 then file_size - 1 else end_ in
  Segment_init start end_ Segment_default_status.

(** [_create_initial_segments]: the segments it appends, or [None] for
    the [ZeroDivisionError] of [file_size // 0]. *)
Definition create_initial_segments (file_size num_threads : Z) : option (list Segment) :=
  if num_threads =? 0 then None
  else
    let segment_size := file_size / num_threads in
    Some (initial_segment file_size num_threads segment_size <$> range num_threads).

(** ** Claiming and splitting *)

(** [_get_next_segment]: the first segment, in table order, whose status is
    PENDING.  The body only reads; the table is returned as it was found. *)
Definition get_next_segment (segments : list Segment) : option nat * list Segment :=
  (fst <$> list_find (λ s, seg_status s = PENDING) segments, segments).

(** The scanning loop of [_split_largest_segment]; [largest] is the loop
    variable [largest_segment] (position and object), [i] the position of
    the head of [segments] in the table. *)
Fixpoint scan_largest (segments : list Segment) (i : nat)
    (largest : option (nat * Segment)) : option (nat * Segment) :=
  match segments with
  | [] => largest
  | s :: rest =>
      let better :=
        match largest with
        | None => true
        | Some (_, l) => seg_size s >? seg_size l
        end in
      if bool_decide (seg_status s = DOWNLOADING) && better
      then scan_largest rest (S i) (Some (i, s))
      else scan_largest rest (S i) largest
  end.

Definition MIN_SPLIT : Z := 1024 * 1024.

(** The in-place update of [largest_segment] at a split. *)
Definition shrink (l : Segment) : Segment :=
  let split_point := seg_start l + seg_size l / 2 in
  {| seg_start := seg_start l;
     seg_end := split_point;
     seg_size := split_point - seg_start l + 1;
     seg_status := seg_status l |}.

(** The segment created at a split. *)
Definition split_tail (l : Segment) : Segment :=
  let old_end := seg_end l in
  let split_point := seg_start l + seg_size l / 2 in
  Segment_init (split_point + 1) old_end Segment_default_status.

(** [_split_largest_segment]: the position of the new segment and the
    table after the split, or [None] and the table as it was. *)
Definition split_largest_segment (segments : list Segment) : option nat * list Segment :=
  match scan_largest segments 0 None with
  | Some (i, l) =>
      if seg_size l >? MIN_SPLIT
      then (Some (length segments), <[i := shrink l]> segments ++ [split_tail l])
      else (None, segments)
  | None => (None, segments)
  end.

(** ** Coverage of the byte range *)

Definition covers (b : Z) (s : Segment) : bool :=
  (seg_start s <=? b) && (b <=? seg_end s).

Definition live (s : Segment) : bool :=
  negb (bool_decide (seg_status s = FAILED)).

Definition weight (b : Z) (s : Segment) : nat :=
  if live s && covers b s then 1%nat else 0%nat.

(** Number of non-Failed segments whose range holds byte [b]. *)
Fixpoint cover_count (b : Z) (segments : list Segment) : nat :=
  match segments with
  | [] => 0%nat
  | s :: rest => (weight b s + cover_count b rest)%nat
  end.

(** The non-Failed segments cover every byte of [[0, file_size-1]] exactly
    once and no byte outside. *)
Definition partitions (file_size : Z) (segments : list Segment) : Prop :=
  ∀ b, cover_count b segments = if decide (0 ≤ b < file_size) then 1%nat else 0%nat.

(** [size] is kept equal to [end - start + 1]. *)
Definition seg_wf (s : Segment) : Prop := seg_size s = seg_end s - seg_start s + 1.

(** Consecutive non-Failed segments from [lo] up to, excluding, [hi]. *)
Inductive chain : Z → list Segment → Z → Prop :=
| chain_nil lo : chain lo [] lo
| chain_cons lo s rest hi :
    seg_start s = lo →
    lo ≤ seg_end s + 1 →
    live s = true →
    chain (seg_end s + 1) rest hi →
    chain lo (s :: rest) hi.

(** ** Files, log and requests *)

Abbreviation bytes := (list Byte.byte).

Inductive LogLevel : Set := LDebug | LWarning | LError.

(** The messages the module logs, with the values they are formatted from. *)
Inductive LogMessage : Set :=
| Msg_interrupted                       (* "Download was interrupted" *)
| Msg_download_error                    (* "Error during segmented download: ..." *)
| Msg_segment_failed (i : nat)          (* "Failed to download segment ..." *)
| Msg_no_temppath                       (* "No temppath available for assembly" *)
| Msg_part_not_found (start : Z).       (* "Segment file ... not found during assembly" *)

Inductive Request : Set :=
| HEAD
| GET (range_start range_end : Z).

(** What the module acts on outside the manager object.  A part file
    [<temppath>.part<start>] is keyed by [start]; [_download_segment] names
    it through [realdirectory] and the base name of [temppath], which is the
    same file when [temppath] lies in [realdirectory].  [output] is the file
    at [temppath].  A write to a part file appends to its content. *)
Record World : Type := Build_World {
  parts : gmap Z bytes;
  output : option bytes;
  log : list (LogLevel * LogMessage);
  requests : list Request;
  progress : list (Z * Z);
  shutdown : bool
}.

Definition set_parts (p : gmap Z bytes) (w : World) : World :=
  Build_World p (output w) (log w) (requests w) (progress w) (shutdown w).
Definition set_output (o : option bytes) (w : World) : World :=
  Build_World (parts w) o (log w) (requests w) (progress w) (shutdown w).
Definition add_log (lv : LogLevel) (msg : LogMessage) (w : World) : World :=
  Build_World (parts w) (output w) (log w ++ [(lv, msg)]) (requests w) (progress w) (shutdown w).
Definition add_request (r : Request) (w : World) : World :=
  Build_World (parts w) (output w) (log w) (requests w ++ [r]) (progress w) (shutdown w).
Definition add_progress (total done : Z) (w : World) : World :=
  Build_World (parts w) (output w) (log w) (requests w) (progress w ++ [(total, done)]) (shutdown w).
Definition set_shutdown (w : World) : World :=
  Build_World (parts w) (output w) (log w) (requests w) (progress w) true.

(** Modelled from the spec: [util.remove_file] is imported from the package
    and is not among the sources at hand; the spec has it delete the part
    file, and a file that is not there is no error. *)
Definition remove_file (start : Z) (w : World) : World :=
  set_parts (delete start (parts w)) w.

(** ** The manager object *)

Record PathFmt : Set := Build_PathFmt {
  temppath : string;
  realpath : string;
  path : string
}.

(** Where a worker thread stands in [_worker]. *)
Inductive Worker : Set :=
| WLoop                  (* at the loop condition *)
| WNoPending             (* [_get_next_segment] gave None *)
| WAssigned (i : nat)    (* holds segment [i], before [_download_segment] *)
| WRequesting (i : nat)  (* status written, GET sent *)
| WStreaming (i : nat)   (* part file open, body being read *)
| WExited.

#[global] Instance Worker_eq_dec : EqDecision Worker.
Proof. solve_decision. Defined.

Record Manager : Set := Build_Manager {
  segments : list Segment;
  threads : list Worker;
  file_size : Z;
  num_threads : Z;
  downloaded_bytes : Z;
  pathfmt : PathFmt;
  http_part : bool       (* [http_downloader.part] *)
}.

Definition set_segments (l : list Segment) (m : Manager) : Manager :=
  Build_Manager l (threads m) (file_size m) (num_threads m) (downloaded_bytes m)
    (pathfmt m) (http_part m).
Definition set_threads (l : list Worker) (m : Manager) : Manager :=
  Build_Manager (segments m) l (file_size m) (num_threads m) (downloaded_bytes m)
    (pathfmt m) (http_part m).
Definition set_file_size (n : Z) (m : Manager) : Manager :=
  Build_Manager (segments m) (threads m) n (num_threads m) (downloaded_bytes m)
    (pathfmt m) (http_part m).
Definition set_downloaded_bytes (n : Z) (m : Manager) : Manager :=
  Build_Manager (segments m) (threads m) (file_size m) (num_threads m) n
    (pathfmt m) (http_part m).
Definition set_pathfmt (p : PathFmt) (m : Manager) : Manager :=
  Build_Manager (segments m) (threads m) (file_size m) (num_threads m)
    (downloaded_bytes m) p (http_part m).

Definition set_worker (w : nat) (st : Worker) (m : Manager) : Manager :=
  set_threads (<[w := st]> (threads m)) m.
Definition mark (i : nat) (st : SegmentStatus) (m : Manager) : Manager :=
  set_segments (alter (set_status st) i (segments m)) m.

(** ** The worker threads, one atomic action at a time *)

(** What can happen next: the interrupt handler runs, a worker takes a step
    that needs nothing from the network, or the network answers a worker. *)
Inductive Action : Set :=
| Interrupt
| Step (w : nat)
| Respond (w : nat) (ok : bool)
| Chunk (w : nat) (data : bytes)
| EndOfBody (w : nat)
| Broken (w : nat).

(** The [except Exception] clause of [_worker]. *)
Definition worker_exception (w i : nat) (st : Manager * World) : Manager * World :=
  let '(m, wd) := st in
  if shutdown wd then (set_worker w WExited m, wd)
  else (set_worker w WLoop (mark i FAILED m), add_log LError (Msg_segment_failed i) wd).

Definition step (a : Action) (st : Manager * World) : option (Manager * World) :=
  let '(m, wd) := st in
  match a with
  | Interrupt => Some (m, set_shutdown wd)
  | Step w =>
      match threads m !! w with
      | Some WLoop =>
          if shutdown wd then Some (set_worker w WExited m, wd)
          else
            let '(r, segs) := get_next_segment (segments m) in
            Some (set_worker w (from_option WAssigned WNoPending r) (set_segments segs m), wd)
      | Some WNoPending =>
          let '(r, segs) := split_largest_segment (segments m) in
          Some (set_worker w (from_option WAssigned WExited r) (set_segments segs m), wd)
      | Some (WAssigned i) =>
          match segments m !! i with
          | Some s =>
              Some (set_worker w (WRequesting i) (mark i DOWNLOADING m),
                    add_request (GET (seg_start s) (seg_end s)) wd)
          | None => None
          end
      | _ => None
      end
  | Respond w ok =>
      match threads m !! w with
      | Some (WRequesting i) =>
          match segments m !! i with
          | Some s =>
              if ok
              then Some (set_worker w (WStreaming i) m, set_parts (<[seg_start s := []]> (parts wd)) wd)
              else Some (worker_exception w i (m, wd))
          | None => None
          end
      | _ => None
      end
  | Chunk w data =>
      match threads m !! w with
      | Some (WStreaming i) =>
          match segments m !! i with
          | Some s =>
              let '(m1, wd1) :=
                match data with
                | [] => (m, wd)
                | _ =>
                    let n := downloaded_bytes m + Z.of_nat (length data) in
                    (set_downloaded_bytes n m,
                     add_progress (file_size m) n
                       (set_parts (<[seg_start s := default [] (parts wd !! seg_start s) ++ data]> (parts wd)) wd))
                end in
              if shutdown wd1 then Some (set_worker w WLoop m1, wd1)
              else Some (m1, wd1)
          | None => None
          end
      | _ => None
      end
  | EndOfBody w =>
      match threads m !! w with
      | Some (WStreaming i) => Some (set_worker w WLoop (mark i COMPLETED m), wd)
      | _ => None
      end
  | Broken w =>
      match threads m !! w with
      | Some (WStreaming i) => Some (worker_exception w i (m, wd))
      | _ => None
      end
  end.

(** A schedule of actions; [None] when one of them is not enabled. *)
Fixpoint run (sched : list Action) (st : Manager * World) : option (Manager * World) :=
  match sched with
  | [] => Some st
  | a :: rest =>
      match step a st with
      | Some st' => run rest st'
      | None => None
      end
  end.

Definition all_exited (l : list Worker) : bool :=
  forallb (λ t, bool_decide (t = WExited)) l.

(** ** Assembly and cleanup *)

(** [sorted(self.segments, key=lambda s: s.start)]: Python's [sorted] is
    stable, it is embedded as a stable insertion sort on [start]. *)
Fixpoint insert_by_start (s : Segment) (l : list Segment) : list Segment :=
  match l with
  | [] => [s]
  | x :: rest =>
      if seg_start s <=? seg_start x then s :: x :: rest
      else x :: insert_by_start s rest
  end.

Fixpoint sorted (l : list Segment) : list Segment :=
  match l with
  | [] => []
  | s :: rest => insert_by_start s (sorted rest)
  end.

(** The body of the loop of [_assemble_file] for the part file
    [<temppath>.part<start>]: it is read, written to the output and removed;
    a missing part file is a warning. *)
Definition assemble_part (w : World) (start : Z) : World :=
  match parts w !! start with
  | Some data => remove_file start (set_output ((λ o, o ++ data) <$> output w) w)
  | None => add_log LWarning (Msg_part_not_found start) w
  end.

Definition assemble_segment (w : World) (s : Segment) : World :=
  assemble_part w (seg_start s).

(** [_assemble_file] *)
Definition assemble_file (m : Manager) (w : World) : World :=
  if bool_decide (temppath (pathfmt m) = EmptyString)
  then add_log LError Msg_no_temppath w
  else foldl assemble_segment (set_output (Some []) w) (sorted (segments m)).

(** [_cleanup_partial_files] *)
Definition cleanup_segment (w : World) (s : Segment) : World :=
  if bool_decide (seg_status s = COMPLETED) then remove_file (seg_start s) w else w.

Definition cleanup_partial_files (m : Manager) (w : World) : World :=
  foldl cleanup_segment w (segments m).

(** ** download *)

(** The path planner the manager is given ([pathfmt]); its methods are the
    caller's. [finalize] is [None] when it raises. *)
Class PathPlanner : Type := {
  part_enable : PathFmt → PathFmt;
  build_path : PathFmt → PathFmt;
  finalize : PathFmt → World → option World
}.

Definition endswith (suffix s : string) : bool :=
  let n := String.length s in
  let k := String.length suffix in
  (k <=? n)%nat && String.eqb (substring (n - k) k s) suffix.

(** [s[:-5]] *)
Definition drop_last5 (s : string) : string :=
  substring 0 (String.length s - 5) s.

Definition set_realpath (r : string) (p : PathFmt) : PathFmt :=
  Build_PathFmt (temppath p) r r.

(** The lines of [download] that make sure of [temppath] and [realpath]. *)
Definition setup_pathfmt `{PathPlanner} (part : bool) (p : PathFmt) : PathFmt :=
  let p1 :=
    if bool_decide (temppath p = EmptyString) then
      let p' := if part then part_enable p else p in
      if bool_decide (temppath p' = EmptyString) then build_path p' else p'
    else p in
  if endswith ".part" (temppath p1) && endswith ".part" (realpath p1)
  then set_realpath (drop_last5 (temppath p1)) p1
  else p1.

(** What the surroundings decide during one call of [download]: the answer
    to the HEAD request ([None]: it fails, or there is no usable
    Content-Length) and what happens while the worker threads run. *)
Record Env : Type := Build_Env {
  env_head : option Z;
  env_schedule : list Action
}.

(** [download] from the join of the threads on. *)
Definition after_join `{PathPlanner} (st : Manager * World) : bool * Manager * World :=
  let '(m, w) := st in
  if shutdown w then
    (false, m, cleanup_partial_files m (add_log LWarning Msg_interrupted w))
  else
    let w1 := assemble_file m w in
    match finalize (pathfmt m) w1 with
    | Some w2 => (true, m, w2)
    | None => (false, m, add_log LError Msg_download_error w1)
    end.

(** [download] up to the start of the threads: the value returned when it
    ends before, or the state in which the threads start. *)
Definition start_download `{PathPlanner} (head : option Z) (st : Manager * World)
    : (bool * Manager * World) + (Manager * World) :=
  let '(m, w) := st in
  if shutdown w then inl (false, m, w)
  else
    let m1 := set_pathfmt (setup_pathfmt (http_part m) (pathfmt m)) m in
    let w1 := add_request HEAD w in
    match head with
    | None => inl (false, m1, add_log LError Msg_download_error w1)
    | Some n =>
        let m2 := set_file_size n m1 in
        match create_initial_segments n (num_threads m2) with
        | None => inl (false, m2, add_log LError Msg_download_error w1)
        | Some segs =>
            inr (set_threads (threads m2 ++ replicate (Z.to_nat (num_threads m2)) WLoop)
                   (set_segments (segments m2 ++ segs) m2),
                 w1)
        end
    end.

(** [download]: the value returned and the state left behind; [None] when
    the schedule leaves a thread running, so that [join] does not return. *)
Definition download `{PathPlanner} (env : Env) (st : Manager * World)
    : option (bool * Manager * World) :=
  match start_download (env_head env) st with
  | inl r => Some r
  | inr st1 =>
      match run (env_schedule env) st1 with
      | Some (m4, w4) =>
          if all_exited (threads m4) then Some (after_join (m4, w4)) else None
      | None => None
      end
  end.

(** A worker holds segment [i]: it was handed to it and the worker has not
    finished with it. *)
Definition holds (i : nat) (t : Worker) : bool :=
  match t with
  | WAssigned j | WRequesting j | WStreaming j => bool_decide (i = j)
  | _ => false
  end.

(** A manager as [__init__] leaves it. *)
Definition Manager_init (n : Z) (p : PathFmt) (part : bool) : Manager :=
  Build_Manager [] [] 0 n 0 p part.

Definition World_init : World := Build_World ∅ None [] [] [] false.

(** The loop variable of the scan is no larger than [l]. *)
Definition acc_size_le (acc : option (nat * Segment)) (l : Segment) : Prop :=
  match acc with
  | Some (_, a) => seg_size a ≤ seg_size l
  | None => True
  end.

(** Two distinct workers hold the same segment while it is Downloading. *)
Definition doubly_held (m : Manager) (i : nat) : Prop :=
  ∃ (a b : nat) ta tb,
    a ≠ b
    ∧ threads m !! a = Some ta ∧ holds i ta = true
    ∧ threads m !! b = Some tb ∧ holds i tb = true
    ∧ seg_status <$> segments m !! i = Some DOWNLOADING.



(** The part files left when those of the segments [l] are removed. *)
Definition remove_parts (l : list Segment) (p : gmap Z bytes) : gmap Z bytes :=
  foldl (λ q s, delete (seg_start s) q) p l.

(** Ascending order of [start]. *)
Definition by_start (a b : Segment) : Prop := seg_start a ≤ seg_start b.

(** A path planner for the examples: [finalize] leaves the files alone. *)
Definition plain_planner : PathPlanner :=
  {| part_enable p := p;
     build_path p := Build_PathFmt "/tmp/file.part" "/tmp/file.part" "/tmp/file.part";
     finalize _ w := Some w |}.

(** ** The table under splits *)

(** The invariant of the segment table of a download of [file_size] bytes. *)
Definition table_inv (file_size : Z) (segments : list Segment) : Prop :=
  Forall seg_wf segments ∧ partitions file_size segments.

(** Tables reached by splits, and by the writes of a status other than
    FAILED that the workers make in between, to segments that are not
    Failed. *)
Inductive split_reach (segments : list Segment) : list Segment → Prop :=
| reach_refl : split_reach segments segments
| reach_split t i t' :
    split_reach segments t →
    split_largest_segment t = (Some i, t') →
    split_reach segments t'
| reach_mark t i s st :
    split_reach segments t →
    t !! i = Some s →
    live s = true →
    st ≠ FAILED →
    split_reach segments (alter (set_status st) i t).

(** The range of a segment holds at least one byte. *)
Definition nonempty (s : Segment) : Prop := seg_start s ≤ seg_end s.

(** The ranges of all segments, whatever their status. *)
Definition ranges (segments : list Segment) : list Segment :=
  set_status PENDING <$> segments.

(** All segments, the Failed ones too, have non-empty ranges, and these
    partition [[0, file_size-1]]. *)
Definition ranges_inv (file_size : Z) (segments : list Segment) : Prop :=
  Forall seg_wf segments ∧ Forall nonempty segments
  ∧ partitions file_size (ranges segments).

(** ** The run of the worker threads as a whole *)

(** The bytes the network delivers in a schedule. *)
Fixpoint chunk_bytes (sched : list Action) : Z :=
  match sched with
  | [] => 0
  | Chunk _ data :: rest => Z.of_nat (length data) + chunk_bytes rest
  | _ :: rest => chunk_bytes rest
  end.

(** While there is no shutdown: a segment that is Downloading has a worker
    requesting or streaming it; and once a worker has found nothing
    Pending, a segment that is Pending is in the hands of a worker about to
    download it. *)
Definition drain_inv (st : Manager * World) : Prop :=
  shutdown st.2 = false →
  (∀ (i : nat) s, segments st.1 !! i = Some s → seg_status s = DOWNLOADING →
     ∃ k : nat, threads st.1 !! k = Some (WRequesting i)
                ∨ threads st.1 !! k = Some (WStreaming i))
  ∧ ((∃ k : nat, threads st.1 !! k = Some WNoPending ∨ threads st.1 !! k = Some WExited) →
     ∀ (i : nat) s, segments st.1 !! i = Some s → seg_status s = PENDING →
       ∃ k : nat, threads st.1 !! k = Some (WAssigned i)).


(** The second component of the reports to [out.progress] grows. *)
Definition progress_lt (a b : Z * Z) : Prop := a.2 < b.2.

(** The number of its own actions a worker can still take once the
    shutdown event is set. *)
Definition steps_left (t : Worker) : nat :=
  match t with
  | WExited => 0
  | WLoop => 1
  | WStreaming _ => 2
  | WRequesting _ => 3
  | WAssigned _ => 4
  | WNoPending => 5
  end.

Fixpoint total_left (thr : list Worker) : nat :=
  match thr with
  | [] => 0
  | t :: rest => steps_left t + total_left rest
  end.

(** The actions of a schedule that are taken by workers. *)
Fixpoint worker_actions (sched : list Action) : nat :=
  match sched with
  | [] => 0
  | Interrupt :: rest => worker_actions rest
  | _ :: rest => S (worker_actions rest)
  end.



(** * Properties *)

(** ** Initial partitioning *)

Lemma chain_bounds lo segs hi : chain lo segs hi → lo ≤ hi.
Proof. induction 1; lia. Qed.

Lemma weight_chain_head b s :
  live s = true → weight b s = if decide (seg_start s ≤ b < seg_end s + 1) then 1%nat else 0%nat.
Proof.
  intros Hl. unfold weight, covers. rewrite Hl. simpl.
  destruct (Z.leb_spec (seg_start s) b), (Z.leb_spec b (seg_end s));
    simpl; case_decide; lia.
Qed.

Lemma chain_cover_count lo segs hi b :
  chain lo segs hi →
  cover_count b segs = if decide (lo ≤ b < hi) then 1%nat else 0%nat.
Proof.
  induction 1 as [lo | lo s rest hi Hs Hle Hl Hc IH]; simpl.
  - case_decide; lia.
  - rewrite IH, (weight_chain_head _ _ Hl). apply chain_bounds in Hc.
    repeat case_decide; lia.
Qed.

Lemma initial_chain fs n ss (m k : nat) :
  0 ≤ ss → (n - 1) * ss ≤ fs → Z.of_nat k + Z.of_nat (S m) = n →
  chain (Z.of_nat k * ss) (initial_segment fs n ss <$> (Z.of_nat <$> seq k (S m))) fs.
Proof.
  intros Hss Hfs. revert k. induction m as [| m IH]; intros k Hk.
  - simpl. unfold initial_segment.
    replace (Z.of_nat k =? n - 1) with true by (symmetry; apply Z.eqb_eq; lia).
    apply chain_cons; simpl; try done.
    + replace (Z.of_nat k) with (n - 1) by lia. lia.
    + replace (fs - 1 + 1) with fs by lia. constructor.
  - change (seq k (S (S m))) with (k :: seq (S k) (S m)).
    rewrite !fmap_cons. unfold initial_segment at 1.
    replace (Z.of_nat k =? n - 1) with false by (symmetry; apply Z.eqb_neq; lia).
    apply chain_cons; simpl; try done; [lia |].
    replace (Z.of_nat k * ss + ss - 1 + 1) with (Z.of_nat (S k) * ss) by lia.
    apply IH. lia.
Qed.

Lemma range_lookup n (i : nat) z :
  range n !! i = Some z → z = Z.of_nat i ∧ (i < Z.to_nat n)%nat.
Proof.
  unfold range. rewrite list_lookup_fmap. intros H.
  destruct (seq 0 (Z.to_nat n) !! i) as [j |] eqn:E; simplify_eq/=.
  apply lookup_seq in E. split; [f_equal |]; lia.
Qed.

Lemma initial_segments_chain (fs n : Z) :
  0 ≤ fs → 1 ≤ n →
  chain 0 (initial_segment fs n (fs / n) <$> range n) fs.
Proof.
  intros Hfs Hn.
  assert (Hss : 0 ≤ fs / n) by (apply Z.div_pos; lia).
  assert (Hdm : fs = n * (fs / n) + fs mod n) by (apply Z.div_mod; lia).
  assert (Hmod : 0 ≤ fs mod n < n) by (apply Z.mod_pos_bound; lia).
  unfold range. destruct (Z.to_nat n) as [| m] eqn:E; [lia |].
  apply (initial_chain fs n (fs / n) m 0%nat); [done | nia | lia].
Qed.

Lemma initial_segments_lookup (fs n : Z) (i : nat) s :
  1 ≤ n →
  (initial_segment fs n (fs / n) <$> range n) !! i = Some s →
  seg_status s = PENDING ∧ seg_wf s
  ∧ seg_start s = Z.of_nat i * (fs / n)
  ∧ if decide (Z.of_nat i = n - 1)
    then seg_end s = fs - 1 ∧ seg_size s = fs / n + fs mod n
    else seg_end s = seg_start s + fs / n - 1 ∧ seg_size s = fs / n.
Proof.
  intros Hn. rewrite list_lookup_fmap. intros H.
  assert (Hdm : fs = n * (fs / n) + fs mod n) by (apply Z.div_mod; lia).
  destruct (range n !! i) as [z |] eqn:E; simplify_eq/=.
  apply range_lookup in E as [-> Hi].
  unfold initial_segment, seg_wf. simpl.
  repeat split; try done.
  case_decide as Hlast.
  - replace (Z.of_nat i =? n - 1) with true by (symmetry; apply Z.eqb_eq; lia).
    split; [done |]. rewrite Hlast. nia.
  - replace (Z.of_nat i =? n - 1) with false by (symmetry; apply Z.eqb_neq; lia).
    lia.
Qed.

(** C4. For [file_size >= 1] and [num_threads >= 1],
    [_create_initial_segments] yields exactly [num_threads] segments, all
    Pending; consecutive segments are adjacent from byte 0 to byte
    [file_size - 1], so that every byte of [[0, file_size-1]] lies in
    exactly one of them and no other byte in any; every segment but the
    last has size [file_size // num_threads], and the last ends at
    [file_size - 1] and takes the remainder. *)
Theorem create_initial_segments_partition (fs n : Z) :
  1 ≤ fs → 1 ≤ n →
  ∃ segs,
    create_initial_segments fs n = Some segs
    ∧ length segs = Z.to_nat n
    ∧ chain 0 segs fs
    ∧ partitions fs segs
    ∧ ∀ (i : nat) s, segs !! i = Some s →
        seg_status s = PENDING ∧ seg_wf s
        ∧ seg_start s = Z.of_nat i * (fs / n)
        ∧ if decide (Z.of_nat i = n - 1)
          then seg_end s = fs - 1 ∧ seg_size s = fs / n + fs mod n
          else seg_size s = fs / n.
Proof.
  intros Hfs Hn. unfold create_initial_segments.
  replace (n =? 0) with false by (symmetry; apply Z.eqb_neq; lia).
  eexists; split; [reflexivity |].
  assert (Hch : chain 0 (initial_segment fs n (fs / n) <$> range n) fs)
    by (apply initial_segments_chain; lia).
  split; [| split; [done | split]].
  - unfold range. by rewrite !length_fmap, length_seq.
  - intros b. by apply chain_cover_count.
  - intros i s Hi.
    destruct (initial_segments_lookup fs n i s Hn Hi) as (H1 & H2 & H3 & H4).
    repeat split; try done. case_decide; [done | by destruct H4].
Qed.

(** Scenario A of the spec is an instance. *)
Lemma create_initial_segments_partition_witness :
  1 ≤ 1000 ∧ 1 ≤ 4 ∧
  ∃ segs,
    create_initial_segments 1000 4 = Some segs
    ∧ length segs = Z.to_nat 4
    ∧ chain 0 segs 1000
    ∧ partitions 1000 segs
    ∧ ∀ (i : nat) s, segs !! i = Some s →
        seg_status s = PENDING ∧ seg_wf s
        ∧ seg_start s = Z.of_nat i * (1000 / 4)
        ∧ if decide (Z.of_nat i = 4 - 1)
          then seg_end s = 1000 - 1 ∧ seg_size s = 1000 / 4 + 1000 mod 4
          else seg_size s = 1000 / 4.
Proof.
  split; [lia |]. split; [lia |].
  apply (create_initial_segments_partition 1000 4); lia.
Defined.

(** ** The scan for the largest segment in flight *)

Lemma scan_largest_found segs k acc i l :
  scan_largest segs k acc = Some (i, l) →
  acc = Some (i, l)
  ∨ ∃ j : nat, i = (k + j)%nat ∧ segs !! j = Some l ∧ seg_status l = DOWNLOADING.
Proof.
  revert k acc. induction segs as [| s rest IH]; intros k acc H; simpl in H.
  - by left.
  - destruct (bool_decide (seg_status s = DOWNLOADING)) eqn:Hd; simpl in H.
    + apply bool_decide_eq_true in Hd.
      destruct (match acc with Some (_, l0) => seg_size s >? seg_size l0 | None => true end).
      * apply IH in H as [H | (j & -> & Hj & Hs)].
        -- simplify_eq. right. exists 0%nat. split; [lia | done].
        -- right. exists (S j). split; [lia | done].
      * apply IH in H as [H | (j & -> & Hj & Hs)]; [by left |].
        right. exists (S j). split; [lia | done].
    + apply IH in H as [H | (j & -> & Hj & Hs)]; [by left |].
      right. exists (S j). split; [lia | done].
Qed.

Lemma scan_largest_max segs k acc i l :
  scan_largest segs k acc = Some (i, l) →
  acc_size_le acc l
  ∧ ∀ s, s ∈ segs → seg_status s = DOWNLOADING → seg_size s ≤ seg_size l.
Proof.
  revert k acc. induction segs as [| s rest IH]; intros k acc H; simpl in H.
  - subst acc. simpl. split; [lia |]. intros s Hs. by apply elem_of_nil in Hs.
  - destruct (bool_decide (seg_status s = DOWNLOADING)) eqn:Hd; simpl in H.
    + destruct acc as [[ia a] |].
      * destruct (Z.gtb_spec (seg_size s) (seg_size a)) as [Hgt | Hle].
        -- apply IH in H as [Ha Hrest]. simpl in Ha. split; [simpl; lia |].
           intros s' Hs' Hst. apply elem_of_cons in Hs' as [-> | Hs']; [lia | auto].
        -- apply IH in H as [Ha Hrest]. simpl in Ha. split; [done |].
           intros s' Hs' Hst. apply elem_of_cons in Hs' as [-> | Hs']; [lia | auto].
      * apply IH in H as [Ha Hrest]. simpl in Ha. split; [done |].
        intros s' Hs' Hst. apply elem_of_cons in Hs' as [-> | Hs']; [lia | auto].
    + apply bool_decide_eq_false in Hd. apply IH in H as [Ha Hrest]. split; [done |].
      intros s' Hs' Hst. apply elem_of_cons in Hs' as [-> | Hs']; [done | auto].
Qed.

Lemma scan_largest_none segs k :
  scan_largest segs k None = None →
  ∀ s, s ∈ segs → seg_status s ≠ DOWNLOADING.
Proof.
  revert k. induction segs as [| s rest IH]; intros k H s' Hs'.
  - by apply elem_of_nil in Hs'.
  - simpl in H. destruct (bool_decide (seg_status s = DOWNLOADING)) eqn:Hd; simpl in H.
    + exfalso. clear -H. revert H. generalize (S k) (k, s).
      induction rest as [| x rest IH]; intros j a H; simpl in H; [done |].
      destruct (bool_decide _ && _); eauto.
    + apply bool_decide_eq_false in Hd.
      apply elem_of_cons in Hs' as [-> | Hs']; [done | eauto].
Qed.

(** What a split is made of. *)
Lemma split_largest_segment_some segs j segs' :
  split_largest_segment segs = (Some j, segs') →
  ∃ (i : nat) l,
    segs !! i = Some l ∧ seg_status l = DOWNLOADING ∧ MIN_SPLIT < seg_size l
    ∧ (∀ s, s ∈ segs → seg_status s = DOWNLOADING → seg_size s ≤ seg_size l)
    ∧ j = length segs
    ∧ segs' = <[i := shrink l]> segs ++ [split_tail l].
Proof.
  unfold split_largest_segment. intros H.
  destruct (scan_largest segs 0 None) as [[i l] |] eqn:E; [| done].
  destruct (Z.gtb_spec (seg_size l) MIN_SPLIT) as [Hgt | Hle]; [| done].
  simplify_eq. exists i, l.
  pose proof (scan_largest_max _ _ _ _ _ E) as [_ Hmax].
  apply scan_largest_found in E as [E | (k & -> & Hk & Hs)]; [done |].
  repeat split; try done.
Qed.

Lemma split_largest_segment_none segs segs' :
  split_largest_segment segs = (None, segs') →
  segs' = segs
  ∧ ∀ s, s ∈ segs → seg_status s = DOWNLOADING → seg_size s ≤ MIN_SPLIT.
Proof.
  unfold split_largest_segment. intros H.
  destruct (scan_largest segs 0 None) as [[i l] |] eqn:E.
  - destruct (Z.gtb_spec (seg_size l) MIN_SPLIT) as [Hgt | Hle]; [done |].
    simplify_eq. split; [done |]. intros s Hs Hst.
    apply scan_largest_max in E as [_ Hmax]. specialize (Hmax s Hs Hst). lia.
  - simplify_eq. split; [done |]. intros s Hs Hst.
    by eapply scan_largest_none in E.
Qed.

(** C9. [_split_largest_segment] splits only a Downloading segment whose
    size exceeds 1 MiB; when no Downloading segment exceeds 1 MiB it
    returns None and the table, with every start, end, size and status, is
    as it was. *)
Theorem split_respects_minimum (segs : list Segment) :
  (∀ j segs', split_largest_segment segs = (Some j, segs') →
     ∃ (i : nat) l, segs !! i = Some l ∧ seg_status l = DOWNLOADING
       ∧ 1024 * 1024 < seg_size l
       ∧ segs' = <[i := shrink l]> segs ++ [split_tail l])
  ∧ ((∀ s, s ∈ segs → seg_status s = DOWNLOADING → seg_size s ≤ 1024 * 1024)
     ↔ split_largest_segment segs = (None, segs)).
Proof.
  split.
  - intros j segs' H.
    apply split_largest_segment_some in H as (i & l & Hi & Hs & Hsz & _ & _ & ->).
    by exists i, l.
  - split.
    + intros Hall.
      destruct (split_largest_segment segs) as [[j |] segs'] eqn:E.
      * apply split_largest_segment_some in E as (i & l & Hi & Hs & Hsz & _).
        apply list_elem_of_lookup_2 in Hi. specialize (Hall l Hi Hs).
        unfold MIN_SPLIT in Hsz. lia.
      * by apply split_largest_segment_none in E as [-> _].
    + intros H. by apply split_largest_segment_none in H as [_ H].
Qed.

(** ** Splits keep the partition *)

Lemma cover_count_app b l1 l2 :
  cover_count b (l1 ++ l2) = (cover_count b l1 + cover_count b l2)%nat.
Proof. induction l1 as [| s l1 IH]; simpl; [done | rewrite IH; lia]. Qed.

Lemma cover_count_insert b segs (i : nat) l l' :
  segs !! i = Some l →
  (cover_count b (<[i := l']> segs) + weight b l = cover_count b segs + weight b l')%nat.
Proof.
  revert i. induction segs as [| s rest IH]; intros [| i] H; simplify_eq/=.
  - lia.
  - specialize (IH i H). lia.
Qed.

Lemma weight_split b l :
  seg_wf l → 1 ≤ seg_size l →
  (weight b (shrink l) + weight b (split_tail l) = weight b l + (if live l then 0 else weight b (split_tail l)))%nat.
Proof.
  unfold seg_wf, weight, covers, live, shrink, split_tail, Segment_init. simpl.
  intros Hwf Hsz.
  assert (0 ≤ seg_size l / 2) by (apply Z.div_pos; lia).
  assert (seg_size l / 2 < seg_size l) by (apply Z.div_lt; lia).
  destruct (negb (bool_decide (seg_status l = FAILED))); simpl; [| lia].
  repeat match goal with
         | |- context [?a <=? ?b] => destruct (Z.leb_spec a b); simpl
         end; lia.
Qed.

Lemma weight_set_status b st s :
  live s = true → st ≠ FAILED → weight b (set_status st s) = weight b s.
Proof.
  unfold weight, live, covers. simpl. intros Hl Hst.
  rewrite (bool_decide_eq_false_2 _ Hst) in *.
  by destruct (bool_decide (seg_status s = FAILED)).
Qed.

Lemma shrink_wf l : seg_wf (shrink l).
Proof. unfold seg_wf, shrink. simpl. lia. Qed.

Lemma split_tail_wf l : seg_wf (split_tail l).
Proof. unfold seg_wf, split_tail. simpl. lia. Qed.

Lemma cover_count_split b segs (i : nat) l :
  segs !! i = Some l → seg_wf l → 1 ≤ seg_size l → live l = true →
  cover_count b (<[i := shrink l]> segs ++ [split_tail l]) = cover_count b segs.
Proof.
  intros Hi Hwf Hsz Hl. rewrite cover_count_app. simpl.
  pose proof (cover_count_insert b segs i l (shrink l) Hi) as Hins.
  pose proof (weight_split b l Hwf Hsz) as Hw. rewrite Hl in Hw. lia.
Qed.

Lemma split_keeps_inv fs segs j segs' :
  table_inv fs segs → split_largest_segment segs = (Some j, segs') →
  table_inv fs segs'.
Proof.
  intros [Hwf Hp] H.
  apply split_largest_segment_some in H as (i & l & Hi & Hs & Hsz & _ & _ & ->).
  assert (Hl : seg_wf l) by (eapply Forall_lookup_1; eauto).
  unfold MIN_SPLIT in Hsz. split.
  - apply Forall_app. split.
    + apply Forall_insert; [done | apply shrink_wf].
    + apply Forall_singleton, split_tail_wf.
  - intros b. rewrite <- (Hp b). apply cover_count_split; try done; [lia |].
    unfold live. by rewrite Hs.
Qed.

Lemma mark_keeps_inv fs segs (i : nat) s st :
  table_inv fs segs → segs !! i = Some s → live s = true → st ≠ FAILED →
  table_inv fs (alter (set_status st) i segs).
Proof.
  intros [Hwf Hp] Hi Hl Hst. split.
  - apply Forall_alter; [done |]. intros x _ Hx. exact Hx.
  - intros b. rewrite <- (Hp b).
    assert (Ha : alter (set_status st) i segs = <[i := set_status st s]> segs).
    { apply list_eq. intros k. destruct (decide (k = i)) as [-> |].
      - rewrite list_lookup_alter_eq, Hi.
        by rewrite list_lookup_insert_eq by (by eapply lookup_lt_Some).
      - by rewrite list_lookup_alter_ne, list_lookup_insert_ne. }
    rewrite Ha.
    pose proof (cover_count_insert b segs i s (set_status st s) Hi) as Hins.
    rewrite (weight_set_status b st s Hl Hst) in Hins. lia.
Qed.

(** C5. Let the table hold segments with [size = end - start + 1] of which
    those not Failed partition [[0, file_size-1]].  After any sequence of
    splits (with the workers' status writes in between) it still does; and
    a split made then shrinks a segment [l] to end at
    [start + size // 2], recomputes its size, appends the segment from the
    byte after that to the old end, and leaves both with a size above 0. *)
Theorem splits_keep_partition (fs : Z) (segs segs' : list Segment) :
  table_inv fs segs → split_reach segs segs' →
  table_inv fs segs'
  ∧ ∀ j segs'', split_largest_segment segs' = (Some j, segs'') →
      ∃ (i : nat) l,
        segs' !! i = Some l
        ∧ segs'' = <[i := shrink l]> segs' ++ [split_tail l]
        ∧ seg_start (shrink l) = seg_start l
        ∧ seg_end (shrink l) = seg_start l + seg_size l / 2
        ∧ seg_size (shrink l) = seg_end (shrink l) - seg_start (shrink l) + 1
        ∧ seg_start (split_tail l) = seg_end (shrink l) + 1
        ∧ seg_end (split_tail l) = seg_end l
        ∧ 0 < seg_size (shrink l) ∧ 0 < seg_size (split_tail l)
        ∧ table_inv fs segs''.
Proof.
  intros Hinv Hreach.
  assert (Hinv' : table_inv fs segs').
  { induction Hreach as [| t i t' _ IH Hsplit | t i s st _ IH Hi Hl Hst].
    - done.
    - eapply split_keeps_inv; eauto.
    - eapply mark_keeps_inv; eauto. }
  split; [done |]. intros j segs'' Hsplit.
  pose proof (split_keeps_inv _ _ _ _ Hinv' Hsplit) as Hinv''.
  apply split_largest_segment_some in Hsplit as (i & l & Hi & Hs & Hsz & _ & _ & ->).
  exists i, l. destruct Hinv' as [Hwf _].
  assert (Hl : seg_wf l) by (eapply Forall_lookup_1; eauto).
  unfold seg_wf in Hl. unfold MIN_SPLIT in Hsz.
  split_and!; try done; unfold shrink, split_tail, Segment_init; simpl;
    Z.to_euclidean_division_equations; lia.
Qed.

(** ** Claiming *)

(** What [_get_next_segment] returns: the first Pending segment in table
    order, None exactly when there is none; the table is left as it was. *)
Lemma get_next_segment_first_pending (segs : list Segment) :
  snd (get_next_segment segs) = segs
  ∧ (∀ i : nat, fst (get_next_segment segs) = Some i ↔
       ∃ s, segs !! i = Some s ∧ seg_status s = PENDING
            ∧ ∀ (j : nat) y, segs !! j = Some y → (j < i)%nat → seg_status y ≠ PENDING)
  ∧ (fst (get_next_segment segs) = None ↔ ∀ s, s ∈ segs → seg_status s ≠ PENDING).
Proof.
  unfold get_next_segment. simpl. split; [done |]. split.
  - intros i. rewrite fmap_Some. split.
    + intros [[k s] [Hf ->]]. apply list_find_Some in Hf. by exists s.
    + intros (s & H). exists (i, s). split; [| done]. by apply list_find_Some.
  - rewrite fmap_None, list_find_None, Forall_forall. done.
Qed.

(** C2. The segment [_get_next_segment] returns is still Pending when it
    is returned: the call writes no status, so the same segment is returned
    to the next caller too.  (The spec has it Downloading on return.) *)
Theorem get_next_segment_leaves_pending (segs : list Segment) (i : nat) :
  fst (get_next_segment segs) = Some i →
  snd (get_next_segment segs) = segs
  ∧ seg_status <$> segs !! i = Some PENDING
  ∧ fst (get_next_segment (snd (get_next_segment segs))) = Some i.
Proof.
  intros H. pose proof (get_next_segment_first_pending segs) as (Hsnd & Hsome & _).
  rewrite Hsnd. split; [done |]. split; [| done].
  apply Hsome in H as (s & -> & Hs & _). simpl. by rewrite Hs.
Qed.

Lemma get_next_segment_leaves_pending_witness :
  fst (get_next_segment [Segment_init 0 499 PENDING; Segment_init 500 999 PENDING]) = Some 0%nat
  ∧ snd (get_next_segment [Segment_init 0 499 PENDING; Segment_init 500 999 PENDING])
    = [Segment_init 0 499 PENDING; Segment_init 500 999 PENDING]
  ∧ seg_status <$> [Segment_init 0 499 PENDING; Segment_init 500 999 PENDING] !! 0%nat
    = Some PENDING
  ∧ fst (get_next_segment
           (snd (get_next_segment [Segment_init 0 499 PENDING; Segment_init 500 999 PENDING])))
    = Some 0%nat.
Proof.
  split; [reflexivity |].
  apply (get_next_segment_leaves_pending
           [Segment_init 0 499 PENDING; Segment_init 500 999 PENDING] 0).
  reflexivity.
Defined.

(** C1. With a file of 1000 bytes and two threads, both workers are handed
    segment 0 and both stream it while its status is Downloading: a worker
    reads the Pending status under the locks and writes Downloading only
    later, in [_download_segment], after the locks were released.  (The
    spec has no two workers on one segment.) *)
Theorem two_workers_hold_one_segment :
  ∃ st m w,
    @start_download plain_planner (Some 1000)
      (Manager_init 2 (Build_PathFmt "" "" "") false, World_init) = inr st
    ∧ run [Step 0; Step 1; Step 0; Step 1; Respond 0 true; Respond 1 true]%nat st
      = Some (m, w)
    ∧ doubly_held m 0
    ∧ requests w = [HEAD; GET 0 499; GET 0 499].
Proof.
  eexists _, _, _. split; [vm_compute; reflexivity |].
  split; [vm_compute; reflexivity |]. split; [| reflexivity].
  exists 0%nat, 1%nat, (WStreaming 0), (WStreaming 0).
  repeat split; done.
Qed.

(** C3. The segment a split creates has status Pending (the default of
    [Segment.__init__]) and sits in the table: when no other segment is
    Pending, the next [_get_next_segment] returns this very segment, to
    any worker.  (The spec has it never Pending.) *)
Theorem split_tail_is_pending (segs : list Segment) (j : nat) (segs' : list Segment) :
  split_largest_segment segs = (Some j, segs') →
  seg_status <$> segs' !! j = Some PENDING
  ∧ ((∀ s, s ∈ segs → seg_status s ≠ PENDING) → get_next_segment segs' = (Some j, segs')).
Proof.
  intros H.
  apply split_largest_segment_some in H as (i & l & Hi & Hs & _ & _ & -> & ->).
  assert (Hj : (<[i := shrink l]> segs ++ [split_tail l]) !! length segs
               = Some (split_tail l)).
  { rewrite lookup_app_r by (rewrite length_insert; lia).
    by rewrite length_insert, Nat.sub_diag. }
  split; [by rewrite Hj |].
  intros Hnp. unfold get_next_segment. f_equal.
  apply fmap_Some. exists (length segs, split_tail l). split; [| done].
  apply list_find_Some. split; [done |]. split; [done |].
  intros k y Hk Hlt. rewrite lookup_app_l in Hk by (rewrite length_insert; lia).
  destruct (decide (k = i)) as [-> | Hne].
  - rewrite list_lookup_insert_eq in Hk by lia. simplify_eq. simpl. by rewrite Hs.
  - rewrite list_lookup_insert_ne in Hk by done.
    apply Hnp. by eapply list_elem_of_lookup_2.
Qed.

Lemma split_tail_is_pending_witness :
  split_largest_segment [Segment_init 0 2097151 DOWNLOADING]
  = (Some 1%nat,
     [Build_Segment_raw 0 1048576 1048577 DOWNLOADING; Segment_init 1048577 2097151 PENDING])
  ∧ (∀ s, s ∈ [Segment_init 0 2097151 DOWNLOADING] → seg_status s ≠ PENDING)
  ∧ seg_status
      <$> [Build_Segment_raw 0 1048576 1048577 DOWNLOADING; Segment_init 1048577 2097151 PENDING]
          !! 1%nat
    = Some PENDING
  ∧ get_next_segment
      [Build_Segment_raw 0 1048576 1048577 DOWNLOADING; Segment_init 1048577 2097151 PENDING]
    = (Some 1%nat,
       [Build_Segment_raw 0 1048576 1048577 DOWNLOADING; Segment_init 1048577 2097151 PENDING]).
Proof.
  assert (Hsplit : split_largest_segment [Segment_init 0 2097151 DOWNLOADING]
    = (Some 1%nat,
       [Build_Segment_raw 0 1048576 1048577 DOWNLOADING; Segment_init 1048577 2097151 PENDING]))
    by reflexivity.
  assert (Hnp : ∀ s, s ∈ [Segment_init 0 2097151 DOWNLOADING] → seg_status s ≠ PENDING).
  { intros s Hs. apply list_elem_of_singleton in Hs. by subst s. }
  split; [exact Hsplit |]. split; [exact Hnp |].
  destruct (split_tail_is_pending _ _ _ Hsplit) as [H1 H2].
  split; [exact H1 | exact (H2 Hnp)].
Defined.

(** A 4 MiB segment in flight is split and the new segment is started. *)
Lemma splits_keep_partition_witness :
  table_inv 4194304 [Segment_init 0 4194303 DOWNLOADING]
  ∧ split_reach [Segment_init 0 4194303 DOWNLOADING]
      [Build_Segment_raw 0 2097152 2097153 DOWNLOADING; Segment_init 2097153 4194303 DOWNLOADING]
  ∧ table_inv 4194304
      [Build_Segment_raw 0 2097152 2097153 DOWNLOADING; Segment_init 2097153 4194303 DOWNLOADING].
Proof.
  assert (Hinv : table_inv 4194304 [Segment_init 0 4194303 DOWNLOADING]).
  { split.
    - apply Forall_singleton. reflexivity.
    - intros b. apply chain_cover_count.
      apply chain_cons; [reflexivity | simpl; lia | reflexivity |].
      change (seg_end (Segment_init 0 4194303 DOWNLOADING) + 1) with 4194304.
      constructor. }
  assert (Hreach : split_reach [Segment_init 0 4194303 DOWNLOADING]
      [Build_Segment_raw 0 2097152 2097153 DOWNLOADING; Segment_init 2097153 4194303 DOWNLOADING]).
  { apply (reach_mark _
             [Build_Segment_raw 0 2097152 2097153 DOWNLOADING; Segment_init 2097153 4194303 PENDING]
             1 (Segment_init 2097153 4194303 PENDING) DOWNLOADING);
      [| reflexivity | reflexivity | discriminate].
    apply (reach_split _ [Segment_init 0 4194303 DOWNLOADING] 1); [| reflexivity].
    apply reach_refl. }
  split; [exact Hinv |]. split; [exact Hreach |].
  exact (proj1 (splits_keep_partition 4194304 _ _ Hinv Hreach)).
Defined.

(** ** Sorting by start *)

Lemma insert_by_start_Permutation s l : insert_by_start s l ≡ₚ s :: l.
Proof.
  induction l as [| x rest IH]; simpl; [done |].
  destruct (seg_start s <=? seg_start x); [done |].
  rewrite IH. apply Permutation_swap.
Qed.


Lemma insert_by_start_sorted s l :
  StronglySorted by_start l → StronglySorted by_start (insert_by_start s l).
Proof.
  induction 1 as [| x rest Hrest IH Hx]; simpl.
  - repeat constructor.
  - destruct (Z.leb_spec (seg_start s) (seg_start x)) as [Hle | Hgt].
    + constructor; [by constructor |].
      constructor; [done |].
      eapply Forall_impl; [exact Hx |]. unfold by_start. intros y Hy. simpl in Hy. lia.
    + constructor; [done |].
      rewrite insert_by_start_Permutation. constructor; [| done].
      unfold by_start. lia.
Qed.

Lemma sorted_StronglySorted l : StronglySorted by_start (sorted l).
Proof.
  induction l as [| s rest IH]; simpl; [constructor |].
  by apply insert_by_start_sorted.
Qed.

(** Stability: segments with the same start keep their table order. *)
Lemma insert_by_start_stable k s l :
  StronglySorted by_start l →
  filter (λ x, seg_start x = k) (insert_by_start s l)
  = filter (λ x, seg_start x = k) (s :: l).
Proof.
  induction 1 as [| x rest Hrest IH Hx]; simpl; [done |].
  destruct (Z.leb_spec (seg_start s) (seg_start x)) as [Hle | Hgt]; [done |].
  rewrite filter_cons, IH, !filter_cons.
  destruct (decide (seg_start x = k)) as [Hxk | Hxk];
    destruct (decide (seg_start s = k)) as [Hsk | Hsk]; try done.
  lia.
Qed.

Lemma sorted_stable k l :
  filter (λ x, seg_start x = k) (sorted l) = filter (λ x, seg_start x = k) l.
Proof.
  induction l as [| s rest IH]; simpl; [done |].
  rewrite insert_by_start_stable by apply sorted_StronglySorted.
  by rewrite !filter_cons, IH.
Qed.


(** ** Assembly *)











(** ** The end of [download] *)





(** ** Cancellation *)

Lemma cleanup_fold (l : list Segment) (w : World) :
  foldl cleanup_segment w l
  = set_parts (remove_parts (filter (λ s, seg_status s = COMPLETED) l) (parts w)) w.
Proof.
  revert w. induction l as [| s rest IH]; intros w.
  - by destruct w.
  - simpl foldl. rewrite IH, filter_cons. unfold cleanup_segment.
    destruct (decide (seg_status s = COMPLETED)) as [Hc | Hc].
    + rewrite bool_decide_eq_true_2 by done. by destruct w.
    + by rewrite bool_decide_eq_false_2 by done.
Qed.

(** The workers never touch the output file. *)
Lemma step_output a st st' : step a st = Some st' → output st'.2 = output st.2.
Proof.
  destruct st as [m w]. unfold step, worker_exception.
  intros H.
  destruct a; repeat case_match; simplify_eq/=; done.
Qed.

Lemma run_output sched st st' : run sched st = Some st' → output st'.2 = output st.2.
Proof.
  revert st. induction sched as [| a rest IH]; intros st H; simpl in H.
  - by simplify_eq.
  - destruct (step a st) as [st1 |] eqn:E; [| done].
    rewrite (IH _ H). by eapply step_output.
Qed.

Lemma start_download_output `{PathPlanner} head st st1 :
  start_download head st = inr st1 → output st1.2 = output st.2.
Proof.
  destruct st as [m w]. unfold start_download. intros Hs.
  repeat case_match; simplify_eq/=; done.
Qed.



(** C10. When the shutdown event is set as [download] is entered, it
    returns False and leaves the manager, the files, the log and the list
    of requests as they were: no request, no segment, no thread. *)
Theorem download_after_shutdown `{PathPlanner} (env : Env) (m : Manager) (w : World) :
  shutdown w = true →
  download env (m, w) = Some (false, m, w).
Proof.
  intros Hsh. unfold download, start_download. by rewrite Hsh.
Qed.

Lemma download_after_shutdown_witness :
  shutdown (set_shutdown World_init) = true
  ∧ @download plain_planner (Build_Env (Some 1000) [Step 0; Step 1]%nat)
      (Manager_init 4 (Build_PathFmt "" "" "") false, set_shutdown World_init)
    = Some (false, Manager_init 4 (Build_PathFmt "" "" "") false, set_shutdown World_init).
Proof.
  split; [reflexivity |].
  apply (@download_after_shutdown plain_planner). reflexivity.
Defined.

(** ** Runs of the whole of [download] *)

(** A file of four bytes and two threads; the second segment completes
    first, the output is in the order of the starts. *)
Example download_two_segments :
  ∃ m w,
    @download plain_planner
      (Build_Env (Some 4)
         [Step 0; Step 0; Step 1; Step 1; Respond 1 true; Respond 0 true;
          Chunk 1 [Byte.x63; Byte.x64]; EndOfBody 1;
          Chunk 0 [Byte.x61]; Chunk 0 [Byte.x62]; EndOfBody 0;
          Step 1; Step 1; Step 0; Step 0]%nat)
      (Manager_init 2 (Build_PathFmt "" "" "") false, World_init)
    = Some (true, m, w)
    ∧ seg_status <$> segments m = [COMPLETED; COMPLETED]
    ∧ output w = Some [Byte.x61; Byte.x62; Byte.x63; Byte.x64]
    ∧ parts w = ∅
    ∧ requests w = [HEAD; GET 0 1; GET 2 3]
    ∧ downloaded_bytes m = 4.
Proof.
  eexists _, _. split; [vm_compute; reflexivity |].
  repeat split; reflexivity.
Qed.

(** Scenario B of the spec: one segment of 1000 bytes in flight is not
    split. *)
Example split_small_segment :
  split_largest_segment [Segment_init 0 999 DOWNLOADING]
  = (None, [Segment_init 0 999 DOWNLOADING]).
Proof. reflexivity. Qed.

(** With fewer bytes than threads the leading segments are empty ranges. *)
Example create_initial_segments_small :
  create_initial_segments 2 4
  = Some [Build_Segment_raw 0 (-1) 0 PENDING; Build_Segment_raw 0 (-1) 0 PENDING;
          Build_Segment_raw 0 (-1) 0 PENDING; Build_Segment_raw 0 1 2 PENDING].
Proof. reflexivity. Qed.

(** A worker that finds nothing Pending splits the segment in flight, and
    the segment it is given is handed to a third worker as well. *)
Example split_tail_claimed_twice :
  ∃ m w,
    run [Step 1; Step 1; Step 2]%nat
      (Build_Manager [Segment_init 0 2097151 DOWNLOADING] [WStreaming 0; WLoop; WLoop]
         2097152 3 0 (Build_PathFmt "/tmp/f.part" "/tmp/f" "/tmp/f") false,
       World_init)
    = Some (m, w)
    ∧ threads m = [WStreaming 0; WAssigned 1; WAssigned 1]
    ∧ seg_status <$> segments m = [DOWNLOADING; PENDING].
Proof.
  eexists _, _. split; [vm_compute; reflexivity |]. split; reflexivity.
Qed.

(** ** Distinct starts in every table the workers reach *)

Lemma ranges_pending segs :
  Forall (λ s, seg_status s = PENDING) segs → ranges segs = segs.
Proof.
  induction 1 as [| s rest Hs _ IH]; [done |].
  unfold ranges in *. rewrite fmap_cons, IH. f_equal.
  destruct s. simpl in Hs. by subst.
Qed.

Lemma ranges_inv_initial (fs n : Z) segs :
  1 ≤ n → n ≤ fs → create_initial_segments fs n = Some segs → ranges_inv fs segs.
Proof.
  intros Hn Hfs. unfold create_initial_segments.
  replace (n =? 0) with false by (symmetry; apply Z.eqb_neq; lia).
  intros [= <-].
  assert (Hss : 1 ≤ fs / n) by (apply Z.div_le_lower_bound; lia).
  assert (Hdm : fs = n * (fs / n) + fs mod n) by (apply Z.div_mod; lia).
  assert (Hmod : 0 ≤ fs mod n < n) by (apply Z.mod_pos_bound; lia).
  split_and!.
  - apply Forall_lookup. intros i s Hi.
    by destruct (initial_segments_lookup fs n i s Hn Hi) as (_ & H & _).
  - apply Forall_lookup. intros i s Hi.
    destruct (initial_segments_lookup fs n i s Hn Hi) as (_ & Hwf & Hst & Hlast).
    unfold nonempty. unfold seg_wf in Hwf.
    case_decide; destruct Hlast; lia.
  - rewrite ranges_pending.
    + intros b. apply chain_cover_count, initial_segments_chain; lia.
    + apply Forall_lookup. intros i s Hi.
      by destruct (initial_segments_lookup fs n i s Hn Hi) as (H & _).
Qed.

Lemma ranges_inv_split fs segs j segs' :
  ranges_inv fs segs → split_largest_segment segs = (Some j, segs') →
  ranges_inv fs segs'.
Proof.
  intros (Hwf & Hne & Hp) H.
  apply split_largest_segment_some in H as (i & l & Hi & Hs & Hsz & _ & _ & ->).
  assert (Hl : seg_wf l) by (eapply Forall_lookup_1; eauto).
  unfold MIN_SPLIT in Hsz. unfold seg_wf in Hl.
  split_and!.
  - apply Forall_app. split.
    + apply Forall_insert; [done | apply shrink_wf].
    + apply Forall_singleton, split_tail_wf.
  - apply Forall_app. split.
    + apply Forall_insert; [done |]. unfold nonempty, shrink. simpl.
      Z.to_euclidean_division_equations; lia.
    + apply Forall_singleton. unfold nonempty, split_tail. simpl.
      Z.to_euclidean_division_equations; lia.
  - intros b. rewrite <- (Hp b). unfold ranges.
    rewrite fmap_app, list_fmap_insert.
    change (set_status PENDING (shrink l)) with (shrink (set_status PENDING l)).
    change (set_status PENDING <$> [split_tail l]) with [split_tail (set_status PENDING l)].
    apply cover_count_split; try done.
    + by rewrite list_lookup_fmap, Hi.
    + simpl. lia.
Qed.

Lemma ranges_alter st (i : nat) segs :
  ranges (alter (set_status st) i segs) = ranges segs.
Proof.
  unfold ranges. apply list_eq. intros k. rewrite !list_lookup_fmap.
  destruct (decide (k = i)) as [-> | Hne].
  - rewrite list_lookup_alter_eq. by destruct (segs !! i).
  - by rewrite list_lookup_alter_ne.
Qed.

Lemma ranges_inv_mark fs st (i : nat) segs :
  ranges_inv fs segs → ranges_inv fs (alter (set_status st) i segs).
Proof.
  intros (Hwf & Hne & Hp). split_and!.
  - apply Forall_alter; [done |]. intros x _ Hx. exact Hx.
  - apply Forall_alter; [done |]. intros x _ Hx. exact Hx.
  - by rewrite ranges_alter.
Qed.

Lemma step_ranges_inv fs a st st' :
  step a st = Some st' → ranges_inv fs (segments st.1) → ranges_inv fs (segments st'.1).
Proof.
  destruct st as [m w]. unfold step, worker_exception, get_next_segment.
  intros H Hinv.
  destruct a; repeat case_match; simplify_eq/=;
    try done; try (by apply ranges_inv_mark).
  destruct (split_largest_segment (segments m)) as [[j |] t] eqn:E; simplify_eq/=.
  - by eapply ranges_inv_split.
  - by apply split_largest_segment_none in E as [-> _].
Qed.

Lemma run_ranges_inv fs sched st st' :
  run sched st = Some st' → ranges_inv fs (segments st.1) → ranges_inv fs (segments st'.1).
Proof.
  revert st. induction sched as [| a rest IH]; intros st H Hinv; simpl in H.
  - by simplify_eq.
  - destruct (step a st) as [st1 |] eqn:E; [| done].
    apply (IH _ H). by eapply step_ranges_inv.
Qed.

Lemma cover_count_elem b s l :
  s ∈ l → weight b s = 1%nat → (1 ≤ cover_count b l)%nat.
Proof.
  induction 1 as [| x y l _ IH]; simpl; intros Hw; [lia |].
  specialize (IH Hw). lia.
Qed.

Lemma weight_own_start s :
  nonempty s → weight (seg_start s) (set_status PENDING s) = 1%nat.
Proof.
  unfold nonempty, weight, covers, live. simpl. intros H.
  destruct (Z.leb_spec (seg_start s) (seg_start s)),
           (Z.leb_spec (seg_start s) (seg_end s)); simpl; lia.
Qed.

Lemma ranges_inv_NoDup fs (segs : list Segment) :
  ranges_inv fs segs → NoDup (seg_start <$> segs).
Proof.
  intros (_ & Hne & Hp).
  assert (Hle : ∀ b, (cover_count b (ranges segs) ≤ 1)%nat).
  { intros b. rewrite (Hp b). case_decide; lia. }
  clear Hp. induction Hne as [| s rest Hs Hrest IH]; [constructor |].
  rewrite fmap_cons. apply NoDup_cons. split.
  - intros (s' & Heq & Hs')%list_elem_of_fmap.
    specialize (Hle (seg_start s)). unfold ranges in Hle. rewrite fmap_cons in Hle.
    simpl in Hle. rewrite (weight_own_start s Hs) in Hle.
    assert (1 ≤ cover_count (seg_start s) (set_status PENDING <$> rest))%nat; [| lia].
    apply (cover_count_elem _ (set_status PENDING s')); [by apply list_elem_of_fmap_2 |].
    rewrite Heq. apply weight_own_start.
    by eapply Forall_forall in Hrest.
  - apply IH. intros b. specialize (Hle b). unfold ranges in *.
    rewrite fmap_cons in Hle. simpl in Hle. lia.
Qed.

(** With at least as many bytes as threads, the segments of a fresh manager
    have distinct starts when the threads are done, whatever the schedule:
    every segment has a part file name of its own. *)
Lemma download_distinct_starts `{PathPlanner} (fs n : Z) p part (w : World) sched st1 st4 :
  1 ≤ n → n ≤ fs →
  start_download (Some fs) (Manager_init n p part, w) = inr st1 →
  run sched st1 = Some st4 →
  NoDup (seg_start <$> segments st4.1).
Proof.
  intros Hn Hfs Hstart Hrun.
  apply (ranges_inv_NoDup fs), (run_ranges_inv fs _ _ _ Hrun).
  unfold start_download in Hstart. simpl in Hstart.
  destruct (shutdown w); [done |].
  destruct (create_initial_segments fs n) as [segs |] eqn:E; [| done].
  simplify_eq/=. by eapply ranges_inv_initial.
Qed.

(** * Further properties of the module *)

(** ** Claiming and splitting *)

(** X1. [_get_next_segment] returns the first Pending segment in table
    order, and None exactly when no segment is Pending. *)
Theorem get_next_segment_fifo (segs : list Segment) :
  (∀ i : nat, fst (get_next_segment segs) = Some i ↔
     ∃ s, segs !! i = Some s ∧ seg_status s = PENDING
          ∧ ∀ (j : nat) y, segs !! j = Some y → (j < i)%nat → seg_status y ≠ PENDING)
  ∧ (fst (get_next_segment segs) = None ↔ ∀ s, s ∈ segs → seg_status s ≠ PENDING).
Proof.
  unfold get_next_segment. simpl. split.
  - intros i. rewrite fmap_Some. split.
    + intros [[k s] [Hf Hi]]. simpl in Hi. subst k.
      apply list_find_Some in Hf as (Hl & Hp & Hbefore). exists s. split_and!; try done.
    + intros (s & Hl & Hp & Hbefore). exists (i, s). split; [| done].
      apply list_find_Some. split_and!; try done.
  - rewrite fmap_None, list_find_None, Forall_forall. done.
Qed.

Lemma scan_largest_acc segs k ia a i l :
  scan_largest segs k (Some (ia, a)) = Some (i, l) →
  (i = ia ∧ l = a) ∨ (seg_size a < seg_size l ∧ (k ≤ i)%nat).
Proof.
  revert k ia a. induction segs as [| s rest IH]; intros k ia a H; simpl in H.
  - left. by simplify_eq.
  - destruct (bool_decide (seg_status s = DOWNLOADING)); simpl in H.
    + destruct (Z.gtb_spec (seg_size s) (seg_size a)) as [Hgt | Hle].
      * apply IH in H as [[-> ->] | [Hlt Hk]]; right; split; lia.
      * apply IH in H as [H | [Hlt Hk]]; [by left | right; split; lia].
    + apply IH in H as [H | [Hlt Hk]]; [by left | right; split; lia].
Qed.

Lemma scan_largest_first segs k acc i l :
  (∀ ia a, acc = Some (ia, a) → (ia < k)%nat) →
  scan_largest segs k acc = Some (i, l) →
  ∀ (j : nat) y, segs !! j = Some y → seg_status y = DOWNLOADING →
    (k + j < i)%nat → seg_size y < seg_size l.
Proof.
  revert k acc. induction segs as [| s rest IH]; intros k acc Hacc H j y Hj Hy Hlt.
  - done.
  - simpl in H. destruct j as [| j]; simpl in Hj.
    + simplify_eq. rewrite bool_decide_eq_true_2 in H by done. simpl in H.
      destruct acc as [[ia a] |].
      * specialize (Hacc ia a eq_refl).
        destruct (Z.gtb_spec (seg_size y) (seg_size a)) as [Hgt | Hle].
        -- apply scan_largest_acc in H as [[-> ->] | [Hs _]]; lia.
        -- apply scan_largest_acc in H as [[-> ->] | [Hs _]]; lia.
      * apply scan_largest_acc in H as [[-> ->] | [Hs _]]; lia.
    + assert (Hstep : ∀ acc', (∀ ia a, acc' = Some (ia, a) → (ia < S k)%nat) →
                scan_largest rest (S k) acc' = Some (i, l) → seg_size y < seg_size l).
      { intros acc' Hacc' H'. apply (IH (S k) acc' Hacc' H' j y Hj Hy). lia. }
      destruct (bool_decide (seg_status s = DOWNLOADING) && _) in H.
      * apply (Hstep (Some (k, s))); [| done]. intros ia a Ha. injection Ha as <- <-. lia.
      * apply (Hstep acc); [| done]. intros ia a Ha. specialize (Hacc ia a Ha). lia.
Qed.

(** X2. The segment [_split_largest_segment] splits is a Downloading
    segment of the largest size, and the first of that size in table order:
    every Downloading segment is no larger, and those before it are
    smaller. *)
Theorem split_takes_first_largest (segs : list Segment) (j : nat) (segs' : list Segment) :
  split_largest_segment segs = (Some j, segs') →
  ∃ (i : nat) l,
    segs !! i = Some l ∧ seg_status l = DOWNLOADING
    ∧ segs' = <[i := shrink l]> segs ++ [split_tail l]
    ∧ ∀ (k : nat) y, segs !! k = Some y → seg_status y = DOWNLOADING →
        seg_size y ≤ seg_size l ∧ ((k < i)%nat → seg_size y < seg_size l).
Proof.
  unfold split_largest_segment. intros H.
  destruct (scan_largest segs 0 None) as [[i l] |] eqn:E; [| done].
  destruct (seg_size l >? MIN_SPLIT); [| done]. simplify_eq.
  exists i, l.
  pose proof (scan_largest_max _ _ _ _ _ E) as [_ Hmax].
  assert (Hnone : ∀ (ia : nat) (a : Segment), None = Some (ia, a) → (ia < 0)%nat)
    by (intros ia a Ha; discriminate Ha).
  pose proof (scan_largest_first _ _ _ _ _ Hnone E) as Hfirst.
  apply scan_largest_found in E as [E | (k & -> & Hk & Hs)]; [done |].
  split_and!; try done.
  intros k' y Hy Hd. split.
  - apply Hmax; [| done]. by eapply list_elem_of_lookup_2.
  - intros Hlt. by apply (Hfirst k' y).
Qed.

Lemma split_takes_first_largest_witness :
  ∃ (i : nat) l,
    [Segment_init 0 2097151 DOWNLOADING; Segment_init 2097152 4194303 DOWNLOADING] !! i = Some l
    ∧ i = 0%nat ∧ seg_status l = DOWNLOADING.
Proof.
  destruct (split_takes_first_largest
    [Segment_init 0 2097151 DOWNLOADING; Segment_init 2097152 4194303 DOWNLOADING]
    2 _ eq_refl) as (i & l & Hi & Hs & Heq & Hord).
  exists i, l. split; [exact Hi |]. split; [| exact Hs].
  destruct i as [| [| i]]; [reflexivity | | discriminate Hi].
  exfalso. injection Hi as <-.
  destruct (Hord 0%nat (Segment_init 0 2097151 DOWNLOADING) eq_refl eq_refl) as [_ Hlt].
  specialize (Hlt ltac:(lia)). simpl in Hlt. lia.
Defined.

(** ** Initial partitioning with few bytes *)

(** X3. With fewer bytes than threads [_create_initial_segments] gives
    every segment the start 0, hence the same part file name; all but the
    last are the empty range from 0 to -1 and the last is the whole file. *)
Theorem create_initial_segments_few_bytes (fs n : Z) :
  1 ≤ fs → fs < n →
  ∃ segs,
    create_initial_segments fs n = Some segs
    ∧ length segs = Z.to_nat n
    ∧ ∀ (i : nat) s, segs !! i = Some s →
        seg_start s = 0
        ∧ if decide (Z.of_nat i = n - 1)
          then seg_end s = fs - 1 ∧ seg_size s = fs
          else seg_end s = -1 ∧ seg_size s = 0.
Proof.
  intros Hfs Hn. unfold create_initial_segments.
  replace (n =? 0) with false by (symmetry; apply Z.eqb_neq; lia).
  eexists. split; [reflexivity |]. split.
  - unfold range. by rewrite !length_fmap, length_seq.
  - intros i s Hi.
    destruct (initial_segments_lookup fs n i s ltac:(lia) Hi) as (_ & _ & Hst & Hlast).
    rewrite Z.div_small in * by lia. rewrite Z.mod_small in Hlast by lia.
    split; [lia |]. case_decide; destruct Hlast; split; lia.
Qed.

Lemma create_initial_segments_few_bytes_witness :
  1 ≤ 2 ∧ 2 < 4 ∧
  ∃ segs,
    create_initial_segments 2 4 = Some segs
    ∧ length segs = Z.to_nat 4
    ∧ ∀ (i : nat) s, segs !! i = Some s →
        seg_start s = 0
        ∧ if decide (Z.of_nat i = 4 - 1)
          then seg_end s = 2 - 1 ∧ seg_size s = 2
          else seg_end s = -1 ∧ seg_size s = 0.
Proof.
  split; [lia |]. split; [lia |].
  apply (create_initial_segments_few_bytes 2 4); lia.
Defined.

(** ** The table during a run *)

(** X4. In a download of at least as many bytes as threads by a fresh
    manager, whatever the workers do and whichever segments fail, the
    ranges of all segments stay non-empty, keep [size = end - start + 1]
    and partition [[0, file_size-1]]; so the starts, and the part file
    names, are distinct. *)
Theorem download_ranges_partition `{PathPlanner} (fs n : Z) p part (w : World)
    sched st1 st4 :
  1 ≤ n → n ≤ fs →
  start_download (Some fs) (Manager_init n p part, w) = inr st1 →
  run sched st1 = Some st4 →
  ranges_inv fs (segments st4.1) ∧ NoDup (seg_start <$> segments st4.1).
Proof.
  intros Hn Hfs Hstart Hrun.
  assert (Hinv : ranges_inv fs (segments st4.1)).
  { apply (run_ranges_inv fs _ _ _ Hrun).
    unfold start_download in Hstart. simpl in Hstart.
    destruct (shutdown w); [done |].
    destruct (create_initial_segments fs n) as [segs |] eqn:E; [| done].
    simplify_eq/=. by eapply ranges_inv_initial. }
  split; [done | by eapply ranges_inv_NoDup].
Qed.

Lemma download_ranges_partition_witness :
  ∃ st1 st4,
    1 ≤ 2 ∧ 2 ≤ 4194304
    ∧ @start_download plain_planner (Some 4194304)
        (Manager_init 2 (Build_PathFmt "" "" "") false, World_init) = inr st1
    ∧ run [Step 0; Step 0; Step 1; Step 1; Respond 1 false; Step 1; Step 1; Step 1]%nat st1
      = Some st4
    ∧ NoDup (seg_start <$> segments st4.1).
Proof.
  destruct (@start_download plain_planner (Some 4194304)
              (Manager_init 2 (Build_PathFmt "" "" "") false, World_init))
    as [r | st1] eqn:Hstart; [vm_compute in Hstart; discriminate Hstart |].
  destruct (run [Step 0; Step 0; Step 1; Step 1; Respond 1 false; Step 1; Step 1; Step 1]%nat st1)
    as [st4 |] eqn:Hrun.
  2: { vm_compute in Hstart. injection Hstart as <-. vm_compute in Hrun. discriminate Hrun. }
  exists st1, st4.
  split; [lia |]. split; [lia |]. split; [reflexivity |]. split; [exact Hrun |].
  assert (H1 : 1 ≤ 2) by lia. assert (H2 : 2 ≤ 4194304) by lia.
  exact (proj2 (@download_ranges_partition plain_planner 4194304 2 _ _ _ _ _ _
                  H1 H2 Hstart Hrun)).
Defined.

Lemma alter_status_lookup st (i k : nat) (segs : list Segment) s :
  segs !! k = Some s →
  ∃ s', alter (set_status st) i segs !! k = Some s'
        ∧ seg_start s' = seg_start s ∧ seg_end s' = seg_end s.
Proof.
  intros Hk. destruct (decide (k = i)) as [-> | Hne].
  - rewrite list_lookup_alter_eq, Hk. by eexists.
  - rewrite list_lookup_alter_ne by done. by eexists.
Qed.

Lemma step_segments a st st' :
  step a st = Some st' →
  segments st'.1 = segments st.1
  ∨ (∃ (i : nat) x, x ≠ PENDING
                    ∧ segments st'.1 = alter (set_status x) i (segments st.1))
  ∨ (∃ j : nat, split_largest_segment (segments st.1) = (Some j, segments st'.1)).
Proof.
  destruct st as [m w]. unfold step, worker_exception, get_next_segment.
  intros H.
  destruct a as [| k | k ok | k data | k | k]; simpl in H.
  - simplify_eq. by left.
  - destruct (threads m !! k) as [[| | i | i | i |] |]; try done.
    + destruct (shutdown w); simplify_eq/=; by left.
    + destruct (split_largest_segment (segments m)) as [[j |] t] eqn:E; simplify_eq/=.
      * right. right. by exists j.
      * left. by apply split_largest_segment_none in E as [-> _].
    + destruct (segments m !! i); simplify_eq/=. right. left. by exists i, DOWNLOADING.
  - destruct (threads m !! k) as [[| | i | i | i |] |]; try done.
    destruct (segments m !! i); [| done].
    destruct ok; [| destruct (shutdown w)]; simplify_eq/=;
      [by left | by left | right; left; by exists i, FAILED].
  - destruct (threads m !! k) as [[| | i | i | i |] |]; try done.
    destruct (segments m !! i); [| done].
    destruct data; simpl in H; destruct (shutdown w); simplify_eq/=; by left.
  - destruct (threads m !! k) as [[| | i | i | i |] |]; try done.
    simplify_eq/=. right. left. by exists i, COMPLETED.
  - destruct (threads m !! k) as [[| | i | i | i |] |]; try done.
    destruct (shutdown w); simplify_eq/=; [by left | right; left; by exists i, FAILED].
Qed.

Lemma step_keeps_segment fs a st st' (k : nat) s :
  ranges_inv fs (segments st.1) →
  step a st = Some st' →
  segments st.1 !! k = Some s →
  ∃ s', segments st'.1 !! k = Some s'
        ∧ seg_start s' = seg_start s ∧ seg_end s' ≤ seg_end s.
Proof.
  intros Hinv H Hk.
  destruct (step_segments _ _ _ H) as [-> | [(i & x & _ & ->) | (j & E)]].
  - exists s. split_and!; [done | done | lia].
  - destruct (alter_status_lookup x i k _ s Hk) as (s' & ? & ? & ?).
    exists s'. split_and!; [done | done | lia].
  - apply split_largest_segment_some in E as (i & l & Hi & Hs & Hsz & _ & _ & ->).
    destruct Hinv as (Hwf & _ & _).
    assert (Hl : seg_wf l) by (eapply Forall_lookup_1; eauto).
    unfold seg_wf in Hl. unfold MIN_SPLIT in Hsz.
    rewrite lookup_app_l by (rewrite length_insert; by eapply lookup_lt_Some).
    destruct (decide (k = i)) as [-> | Hne].
    + rewrite list_lookup_insert_eq by (by eapply lookup_lt_Some).
      simplify_eq. eexists. split; [done |]. simpl.
      split; [done |]. Z.to_euclidean_division_equations; lia.
    + rewrite list_lookup_insert_ne by done.
      exists s. split_and!; [done | done | lia].
Qed.

Lemma run_keeps_segment fs sched st st' (k : nat) s :
  ranges_inv fs (segments st.1) →
  run sched st = Some st' →
  segments st.1 !! k = Some s →
  ∃ s', segments st'.1 !! k = Some s'
        ∧ seg_start s' = seg_start s ∧ seg_end s' ≤ seg_end s.
Proof.
  revert st s. induction sched as [| a rest IH]; intros st s Hinv H Hk; simpl in H.
  - simplify_eq. exists s. split_and!; [done | done | lia].
  - destruct (step a st) as [st1 |] eqn:E; [| done].
    destruct (step_keeps_segment fs a st st1 k s Hinv E Hk) as (s1 & Hk1 & Hst1 & Hend1).
    destruct (IH st1 s1 (step_ranges_inv fs a st st1 E Hinv) H Hk1)
      as (s' & Hk' & Hst' & Hend').
    exists s'. split_and!; [done | congruence | lia].
Qed.



(** ** The byte counter and the progress reports *)

Lemma step_downloaded_bytes a st st' :
  step a st = Some st' →
  downloaded_bytes st'.1 = downloaded_bytes st.1 + chunk_bytes [a]
  ∧ file_size st'.1 = file_size st.1.
Proof.
  destruct st as [m w]. unfold step, worker_exception, get_next_segment.
  intros H.
  destruct a; repeat case_match; simplify_eq/=; split; try done; lia.
Qed.

Lemma chunk_bytes_nonneg sched : 0 ≤ chunk_bytes sched.
Proof. induction sched as [| [] rest IH]; simpl; lia. Qed.

Lemma run_counter sched st st' :
  run sched st = Some st' →
  downloaded_bytes st'.1 = downloaded_bytes st.1 + chunk_bytes sched
  ∧ file_size st'.1 = file_size st.1.
Proof.
  revert st. induction sched as [| a rest IH]; intros st H; simpl in H.
  - simplify_eq. simpl. split; [lia | done].
  - destruct (step a st) as [st1 |] eqn:E; [| done].
    destruct (IH _ H) as [-> ->]. apply step_downloaded_bytes in E as [-> ->].
    split; [| done]. destruct a; simpl; lia.
Qed.

(** X6. When the threads have run, [downloaded_bytes] has grown by exactly
    the number of bytes of the chunks the workers received; it has not
    decreased, and [file_size] is as it was. *)
Theorem run_downloaded_bytes sched st st' :
  run sched st = Some st' →
  downloaded_bytes st'.1 = downloaded_bytes st.1 + chunk_bytes sched
  ∧ downloaded_bytes st.1 ≤ downloaded_bytes st'.1
  ∧ file_size st'.1 = file_size st.1.
Proof.
  intros H. destruct (run_counter _ _ _ H) as [Hc Hf].
  pose proof (chunk_bytes_nonneg sched). split_and!; [done | lia | done].
Qed.

Lemma run_downloaded_bytes_witness :
  let st := (Build_Manager [Segment_init 0 4 PENDING; Segment_init 5 9 PENDING]
               [WLoop; WLoop] 10 2 0 (Build_PathFmt "/tmp/f.part" "/tmp/f" "/tmp/f") false,
             World_init) in
  ∃ st',
    run [Step 0; Step 0; Respond 0 true; Chunk 0 (replicate 3 Byte.x41);
         Chunk 0 []; Chunk 0 (replicate 2 Byte.x41); EndOfBody 0]%nat st = Some st'
    ∧ downloaded_bytes st'.1 = 5.
Proof.
  intros st.
  destruct (run [Step 0; Step 0; Respond 0 true; Chunk 0 (replicate 3 Byte.x41);
         Chunk 0 []; Chunk 0 (replicate 2 Byte.x41); EndOfBody 0]%nat st)
    as [st' |] eqn:Hrun; [| vm_compute in Hrun; discriminate Hrun].
  exists st'. split; [first [exact Hrun | reflexivity] |].
  rewrite (proj1 (run_downloaded_bytes _ _ _ Hrun)). reflexivity.
Defined.

Lemma step_progress a st st' :
  step a st = Some st' →
  ∃ new,
    progress st'.2 = progress st.2 ++ new
    ∧ (length new ≤ 1)%nat
    ∧ Forall (λ e, e.1 = file_size st.1
                   ∧ downloaded_bytes st.1 < e.2 ∧ e.2 ≤ downloaded_bytes st'.1) new.
Proof.
  destruct st as [m w]. unfold step, worker_exception, get_next_segment.
  intros H.
  destruct a; repeat case_match; simplify_eq/=;
    try (exists []; rewrite app_nil_r; split_and!; [done | simpl; lia | constructor]).
  all: eexists [_]; split_and!; [done | simpl; lia |];
    apply Forall_singleton; simpl; lia.
Qed.

(** X7. The reports the workers make to [out.progress] all carry the file
    size as the total, and the number of bytes they carry grows from each
    report to the next, up to the final value of [downloaded_bytes]. *)
Theorem run_progress sched st st' :
  run sched st = Some st' →
  ∃ new,
    progress st'.2 = progress st.2 ++ new
    ∧ Forall (λ e, e.1 = file_size st.1
                   ∧ downloaded_bytes st.1 < e.2 ∧ e.2 ≤ downloaded_bytes st'.1) new
    ∧ StronglySorted progress_lt new.
Proof.
  revert st. induction sched as [| a rest IH]; intros st H; simpl in H.
  - simplify_eq. exists []. rewrite app_nil_r. split_and!; [done | constructor | constructor].
  - destruct (step a st) as [st1 |] eqn:E; [| done].
    destruct (step_progress _ _ _ E) as (n1 & Hp1 & Hlen & Hn1).
    destruct (step_downloaded_bytes _ _ _ E) as [_ Hfs].
    destruct (IH _ H) as (n2 & Hp2 & Hn2 & Hs2).
    assert (Hle : downloaded_bytes st1.1 ≤ downloaded_bytes st'.1).
    { rewrite (proj1 (run_counter _ _ _ H)).
      pose proof (chunk_bytes_nonneg rest). lia. }
    assert (Hge : downloaded_bytes st.1 ≤ downloaded_bytes st1.1).
    { apply step_downloaded_bytes in E as [-> _]. destruct a; simpl; lia. }
    exists (n1 ++ n2). split_and!.
    + by rewrite Hp2, Hp1, app_assoc.
    + apply Forall_app. split.
      * eapply Forall_impl; [exact Hn1 |]. simpl. intros e (? & ? & ?). lia.
      * eapply Forall_impl; [exact Hn2 |]. simpl. intros e (? & ? & ?). lia.
    + destruct n1 as [| e1 [| ? ?]]; [done | | simpl in Hlen; lia].
      simpl. constructor; [done |].
      apply Forall_singleton in Hn1 as (_ & _ & He1).
      eapply Forall_impl; [exact Hn2 |]. unfold progress_lt. simpl.
      intros e (? & ? & ?). lia.
Qed.

Lemma run_progress_witness :
  let st := (Build_Manager [Segment_init 0 4 PENDING; Segment_init 5 9 PENDING]
               [WLoop; WLoop] 10 2 0 (Build_PathFmt "/tmp/f.part" "/tmp/f" "/tmp/f") false,
             World_init) in
  ∃ st',
    run [Step 0; Step 0; Respond 0 true; Chunk 0 (replicate 3 Byte.x41);
         Chunk 0 []; Chunk 0 (replicate 2 Byte.x41); EndOfBody 0]%nat st = Some st'
    ∧ ∃ new, progress st'.2 = progress st.2 ++ new ∧ StronglySorted progress_lt new.
Proof.
  intros st.
  destruct (run [Step 0; Step 0; Respond 0 true; Chunk 0 (replicate 3 Byte.x41);
         Chunk 0 []; Chunk 0 (replicate 2 Byte.x41); EndOfBody 0]%nat st)
    as [st' |] eqn:Hrun; [| vm_compute in Hrun; discriminate Hrun].
  exists st'. split; [first [exact Hrun | reflexivity] |].
  destruct (run_progress _ _ _ Hrun) as (new & Hp & _ & Hs).
  exists new. split; [exact Hp | exact Hs].
Defined.

(** ** Interrupts and failures of [download] *)

Lemma step_shutdown_stays a st st' :
  step a st = Some st' → shutdown st.2 = true → shutdown st'.2 = true.
Proof.
  destruct st as [m w]. unfold step, worker_exception, get_next_segment.
  intros H Hsh. simpl in Hsh.
  destruct a; repeat case_match; simplify_eq/=; done.
Qed.

Lemma run_shutdown_stays sched st st' :
  run sched st = Some st' → shutdown st.2 = true → shutdown st'.2 = true.
Proof.
  revert st. induction sched as [| a rest IH]; intros st H Hsh; simpl in H.
  - by simplify_eq.
  - destruct (step a st) as [st1 |] eqn:E; [| done].
    apply (IH _ H). by eapply step_shutdown_stays.
Qed.

Lemma run_interrupt sched st st' :
  Interrupt ∈ sched → run sched st = Some st' → shutdown st'.2 = true.
Proof.
  revert st. induction sched as [| a rest IH]; intros st Hin H; simpl in H.
  - by apply elem_of_nil in Hin.
  - destruct (step a st) as [st1 |] eqn:E; [| done].
    apply elem_of_cons in Hin as [<- | Hin].
    + apply (run_shutdown_stays _ _ _ H). destruct st as [m w]. by simplify_eq/=.
    + by apply (IH st1).
Qed.

Lemma start_download_early `{PathPlanner} head st r m' w' :
  start_download head st = inl (r, m', w') →
  r = false ∧ output w' = output st.2 ∧ parts w' = parts st.2
  ∧ segments m' = segments st.1 ∧ threads m' = threads st.1.
Proof.
  destruct st as [m w]. unfold start_download. intros Hs.
  repeat case_match; simplify_eq/=; done.
Qed.

(** X8. An interrupt at any moment while the threads run makes [download]
    return False, whatever else happens before or after it. *)
Theorem interrupt_fails_download `{PathPlanner} (env : Env) st r m' w' :
  Interrupt ∈ env_schedule env →
  download env st = Some (r, m', w') →
  r = false.
Proof.
  intros Hin. unfold download.
  destruct (start_download (env_head env) st) as [[[r0 m0] w0] | st1] eqn:Hs.
  - intros [= <- <- <-]. by apply start_download_early in Hs as [? _].
  - destruct (run (env_schedule env) st1) as [[m4 w4] |] eqn:Hrun; [| done].
    destruct (all_exited (threads m4)); [| done].
    apply (run_interrupt _ _ _ Hin) in Hrun. simpl in Hrun.
    unfold after_join. rewrite Hrun. by intros [= <- <- <-].
Qed.

Lemma interrupt_fails_download_witness :
  let env := Build_Env (Some 4)
               [Step 0; Step 0; Respond 0 true; Chunk 0 [Byte.x61; Byte.x62]; EndOfBody 0;
                Interrupt; Step 0; Step 1]%nat in
  ∃ m' w',
    Interrupt ∈ env_schedule env
    ∧ @download plain_planner env
        (Manager_init 2 (Build_PathFmt "" "" "") false, World_init)
      = Some (false, m', w').
Proof.
  intros env.
  destruct (@download plain_planner env
              (Manager_init 2 (Build_PathFmt "" "" "") false, World_init))
    as [[[r m'] w'] |] eqn:Hd; [| vm_compute in Hd; discriminate Hd].
  assert (Hin : Interrupt ∈ env_schedule env).
  { simpl. do 5 (apply elem_of_cons; right). apply elem_of_cons. by left. }
  exists m', w'. split; [exact Hin |].
  by rewrite (@interrupt_fails_download plain_planner env _ r m' w' Hin Hd).
Defined.

(** X9. When [finalize] does not raise, a [download] that returns False
    has left the output file as it found it: no part of the file is
    assembled before a failure. *)
Theorem failed_download_keeps_output `{PathPlanner} (env : Env) st m' w' :
  (∀ p w, is_Some (finalize p w)) →
  download env st = Some (false, m', w') →
  output w' = output st.2.
Proof.
  intros Hfin. unfold download.
  destruct (start_download (env_head env) st) as [[[r0 m0] w0] | st1] eqn:Hs.
  - intros Heq. simplify_eq. by apply start_download_early in Hs as (_ & ? & _).
  - destruct (run (env_schedule env) st1) as [[m4 w4] |] eqn:Hrun; [| done].
    destruct (all_exited (threads m4)); [| done].
    apply run_output in Hrun. apply start_download_output in Hs. simpl in *.
    unfold after_join. destruct (shutdown w4).
    + intros Heq. simplify_eq. unfold cleanup_partial_files. rewrite cleanup_fold.
      simpl. congruence.
    + destruct (Hfin (pathfmt m4) (assemble_file m4 w4)) as [w2 ->]. done.
Qed.

Lemma failed_download_keeps_output_witness :
  let env := Build_Env (Some 4)
               [Step 0; Step 0; Respond 0 true; Chunk 0 [Byte.x61; Byte.x62]; EndOfBody 0;
                Interrupt; Step 0; Step 1]%nat in
  ∃ m' w',
    (∀ p w, is_Some (@finalize plain_planner p w))
    ∧ @download plain_planner env
        (Manager_init 2 (Build_PathFmt "" "" "") false, World_init)
      = Some (false, m', w')
    ∧ output w' = None.
Proof.
  intros env.
  assert (Hfin : ∀ p w, is_Some (@finalize plain_planner p w)) by (intros p w; by eexists).
  assert (Hd : @download plain_planner env
              (Manager_init 2 (Build_PathFmt "" "" "") false, World_init) = Some (false, _, _))
    by (vm_compute; reflexivity).
  eexists _, _. split; [exact Hfin |]. split; [exact Hd |].
  exact (@failed_download_keeps_output plain_planner env _ _ _ Hfin Hd).
Defined.

(** X12. When the HEAD request fails or gives no usable length, or when
    the number of threads is 0, a [download] entered without shutdown
    returns False after the one HEAD request and one logged error; it
    creates no segment and no thread and touches no file. *)
Theorem download_sizing_failure `{PathPlanner} (env : Env) (m : Manager) (w : World) :
  shutdown w = false →
  env_head env = None ∨ num_threads m = 0 →
  ∃ m' w',
    download env (m, w) = Some (false, m', w')
    ∧ segments m' = segments m ∧ threads m' = threads m
    ∧ parts w' = parts w ∧ output w' = output w
    ∧ requests w' = requests w ++ [HEAD]
    ∧ log w' = log w ++ [(LError, Msg_download_error)].
Proof.
  intros Hsh Hcase. unfold download, start_download. rewrite Hsh.
  destruct (env_head env) as [n |] eqn:Hh.
  - destruct Hcase as [? | Hn]; [done |].
    simpl. unfold create_initial_segments. rewrite Hn. simpl.
    eexists _, _. split; [reflexivity |]. done.
  - eexists _, _. split; [reflexivity |]. done.
Qed.

Lemma download_sizing_failure_witness :
  shutdown World_init = false
  ∧ (env_head (Build_Env (Some 1000) []) = None
     ∨ num_threads (Manager_init 0 (Build_PathFmt "" "" "") false) = 0)
  ∧ ∃ m' w',
      @download plain_planner (Build_Env (Some 1000) [])
        (Manager_init 0 (Build_PathFmt "" "" "") false, World_init) = Some (false, m', w')
      ∧ requests w' = [HEAD].
Proof.
  assert (Hsh : shutdown World_init = false) by reflexivity.
  assert (Hc : env_head (Build_Env (Some 1000) []) = None
               ∨ num_threads (Manager_init 0 (Build_PathFmt "" "" "") false) = 0)
    by (right; reflexivity).
  split; [exact Hsh |]. split; [exact Hc |].
  destruct (@download_sizing_failure plain_planner (Build_Env (Some 1000) [])
              (Manager_init 0 (Build_PathFmt "" "" "") false) World_init Hsh Hc)
    as (m' & w' & Hd & _ & _ & _ & _ & Hr & _).
  exists m', w'. split; [exact Hd | exact Hr].
Defined.

(** ** What the workers leave behind *)

Lemma worker_lookup (thr : list Worker) (w k : nat) t0 t1 :
  thr !! w = Some t0 →
  <[w := t1]> thr !! k = if decide (k = w) then Some t1 else thr !! k.
Proof.
  intros Hw. case_decide as Hk.
  - subst k. apply list_lookup_insert_eq. by eapply lookup_lt_Some.
  - by apply list_lookup_insert_ne.
Qed.

Lemma alter_lookup_inv st (i0 i : nat) (segs : list Segment) s :
  alter (set_status st) i0 segs !! i = Some s →
  ∃ s0, segs !! i = Some s0
        ∧ ((i = i0 ∧ s = set_status st s0) ∨ (i ≠ i0 ∧ s = s0)).
Proof.
  destruct (decide (i = i0)) as [-> | Hne].
  - rewrite list_lookup_alter_eq. destruct (segs !! i0) as [s0 |]; [| done].
    intros [= <-]. exists s0. auto.
  - rewrite list_lookup_alter_ne by done. intros H. exists s. auto.
Qed.

Lemma split_lookup_inv (segs : list Segment) (i0 i : nat) l s :
  segs !! i0 = Some l →
  (<[i0 := shrink l]> segs ++ [split_tail l]) !! i = Some s →
  (i = length segs ∧ s = split_tail l)
  ∨ (∃ s0, segs !! i = Some s0 ∧ seg_status s = seg_status s0
           ∧ seg_start s = seg_start s0).
Proof.
  intros Hl Hi. apply lookup_app_Some in Hi as [Hi | [Hlen Hi]].
  - right. destruct (decide (i = i0)) as [-> | Hne].
    + rewrite list_lookup_insert_eq in Hi by (by eapply lookup_lt_Some).
      simplify_eq. by exists l.
    + rewrite list_lookup_insert_ne in Hi by done. by exists s.
  - left. rewrite length_insert in *.
    destruct (i - length segs)%nat as [| d] eqn:E; simpl in Hi; [| done].
    simplify_eq. split; [lia | done].
Qed.

(** The two halves of [drain_inv] over the threads and the table. *)
Lemma downloading_held_step (thr : list Worker) (segs segs' : list Segment) (w : nat) t0 t1 :
  (∀ (i : nat) s, segs !! i = Some s → seg_status s = DOWNLOADING →
     ∃ k : nat, thr !! k = Some (WRequesting i) ∨ thr !! k = Some (WStreaming i)) →
  thr !! w = Some t0 →
  (∀ (i : nat) s, segs' !! i = Some s → seg_status s = DOWNLOADING →
     (t1 = WRequesting i ∨ t1 = WStreaming i)
     ∨ (∃ s0, segs !! i = Some s0 ∧ seg_status s0 = DOWNLOADING
              ∧ t0 ≠ WRequesting i ∧ t0 ≠ WStreaming i)) →
  ∀ (i : nat) s, segs' !! i = Some s → seg_status s = DOWNLOADING →
    ∃ k : nat, <[w := t1]> thr !! k = Some (WRequesting i)
               ∨ <[w := t1]> thr !! k = Some (WStreaming i).
Proof.
  intros HA Hw Hnew i s Hi Hs.
  destruct (Hnew i s Hi Hs) as [Ht1 | (s0 & Hi0 & Hs0 & Hn1 & Hn2)].
  - exists w. rewrite (worker_lookup _ _ _ _ _ Hw), decide_True by done.
    destruct Ht1 as [-> | ->]; auto.
  - destruct (HA i s0 Hi0 Hs0) as (k & Hk). exists k.
    rewrite (worker_lookup _ _ _ _ _ Hw).
    case_decide as Hkw; [| done]. subst k. rewrite Hw in Hk.
    destruct Hk as [[= ->] | [= ->]]; done.
Qed.

Lemma pending_held_step (thr : list Worker) (segs segs' : list Segment) (w : nat) t0 t1 :
  ((∃ k : nat, thr !! k = Some WNoPending ∨ thr !! k = Some WExited) →
   ∀ (i : nat) s, segs !! i = Some s → seg_status s = PENDING →
     ∃ k : nat, thr !! k = Some (WAssigned i)) →
  thr !! w = Some t0 →
  ((t1 = WNoPending ∨ t1 = WExited) →
     (t0 = WNoPending ∨ t0 = WExited)
     ∨ (∀ (i : nat) s, segs' !! i = Some s → seg_status s ≠ PENDING)) →
  (∀ (i : nat) s, segs' !! i = Some s → seg_status s = PENDING →
     t1 = WAssigned i
     ∨ (∃ s0, segs !! i = Some s0 ∧ seg_status s0 = PENDING ∧ t0 ≠ WAssigned i)) →
  (∃ k : nat, <[w := t1]> thr !! k = Some WNoPending ∨ <[w := t1]> thr !! k = Some WExited) →
  ∀ (i : nat) s, segs' !! i = Some s → seg_status s = PENDING →
    ∃ k : nat, <[w := t1]> thr !! k = Some (WAssigned i).
Proof.
  intros HB Hw Hprem Hnew (k & Hk) i s Hi Hs.
  rewrite (worker_lookup _ _ _ _ _ Hw) in Hk.
  assert (Hold : (∃ k : nat, thr !! k = Some WNoPending ∨ thr !! k = Some WExited)
                 ∨ (∀ (i : nat) s, segs' !! i = Some s → seg_status s ≠ PENDING)).
  { case_decide as Hkw.
    - subst k. destruct Hprem as [Ht0 | Hnone].
      + destruct Hk as [[= ->] | [= ->]]; auto.
      + left. exists w. rewrite Hw. destruct Ht0 as [-> | ->]; auto.
      + by right.
    - left. by exists k. }
  destruct Hold as [Hold | Hnone]; [| by destruct (Hnone i s Hi)].
  destruct (Hnew i s Hi Hs) as [-> | (s0 & Hi0 & Hs0 & Hne)].
  - exists w. by rewrite (worker_lookup _ _ _ _ _ Hw), decide_True.
  - destruct (HB Hold i s0 Hi0 Hs0) as (k' & Hk'). exists k'.
    rewrite (worker_lookup _ _ _ _ _ Hw).
    destruct (decide (k' = w)) as [-> | Hkw]; [| done].
    rewrite Hw in Hk'. by simplify_eq.
Qed.

Lemma step_drain_inv a st st' :
  step a st = Some st' → drain_inv st → drain_inv st'.
Proof.
  intros H Hinv Hsh'.
  assert (Hsh : shutdown st.2 = false).
  { destruct (shutdown st.2) eqn:E; [| done].
    by rewrite (step_shutdown_stays _ _ _ H E) in Hsh'. }
  destruct (Hinv Hsh) as [HA HB]. clear Hinv.
  destruct st as [m w]. simpl in *.
  unfold step, worker_exception in H.
  destruct a as [| k | k ok | k data | k | k]; simpl in H.
  - (* Interrupt *) by simplify_eq.
  - (* Step *)
    destruct (threads m !! k) as [[| | i | i | i |] |] eqn:Hk; try done.
    + (* at the loop condition *)
      rewrite Hsh in H.
      pose proof (get_next_segment_first_pending (segments m)) as (_ & _ & Hnone).
      unfold get_next_segment in Hnone. simpl in Hnone.
      destruct (fst <$> list_find (λ s, seg_status s = PENDING) (segments m))
        as [i |] eqn:E; simplify_eq/=.
      * split.
        -- apply (downloading_held_step _ _ _ _ _ _ HA Hk).
           intros i' s Hi' Hs. right. exists s. by split_and!.
        -- apply (pending_held_step _ _ _ _ _ _ HB Hk).
           ++ intros [? | ?]; done.
           ++ intros i' s Hi' Hs. right. exists s. by split_and!.
      * split.
        -- apply (downloading_held_step _ _ _ _ _ _ HA Hk).
           intros i' s Hi' Hs. right. exists s. by split_and!.
        -- apply (pending_held_step _ _ _ _ _ _ HB Hk).
           ++ intros _. right. intros i' s Hi'. apply Hnone; [done |].
              by eapply list_elem_of_lookup_2.
           ++ intros i' s Hi' Hs. right. exists s. by split_and!.
    + (* nothing Pending: split *)
      destruct (split_largest_segment (segments m)) as [[j |] segs] eqn:E;
        simplify_eq/=.
      * apply split_largest_segment_some in E as (i0 & l & Hi0 & Hl & _ & _ & -> & ->).
        split.
        -- apply (downloading_held_step _ _ _ _ _ _ HA Hk).
           intros i' s Hi' Hs. right.
           destruct (split_lookup_inv _ _ _ _ _ Hi0 Hi') as [[_ ->] | (s0 & ? & Hst & _)];
             [done |].
           exists s0. split_and!; [done | congruence | done | done].
        -- apply (pending_held_step _ _ _ _ _ _ HB Hk).
           ++ intros [? | ?]; done.
           ++ intros i' s Hi' Hs.
              destruct (split_lookup_inv _ _ _ _ _ Hi0 Hi') as [[-> _] | (s0 & ? & Hst & _)].
              ** by left.
              ** right. exists s0. split_and!; [done | congruence | done].
      * apply split_largest_segment_none in E as [-> _]. split.
        -- apply (downloading_held_step _ _ _ _ _ _ HA Hk).
           intros i' s Hi' Hs. right. exists s. by split_and!.
        -- apply (pending_held_step _ _ _ _ _ _ HB Hk).
           ++ intros _. left. by left.
           ++ intros i' s Hi' Hs. right. exists s. by split_and!.
    + (* the segment is marked Downloading and requested *)
      destruct (segments m !! i) as [si |] eqn:Hi; simplify_eq/=. split.
      * apply (downloading_held_step _ _ _ _ _ _ HA Hk).
        intros i' s Hi' Hs.
        destruct (alter_lookup_inv _ _ _ _ _ Hi') as (s0 & Hi0 & [[-> ->] | [Hne ->]]).
        -- left. by left.
        -- right. exists s0. by split_and!.
      * apply (pending_held_step _ _ _ _ _ _ HB Hk).
        -- intros [? | ?]; done.
        -- intros i' s Hi' Hs.
           destruct (alter_lookup_inv _ _ _ _ _ Hi') as (s0 & Hi0 & [[-> ->] | [Hne ->]]);
             [done |].
           right. exists s0. split_and!; [done | done | congruence].
  - (* Respond *)
    destruct (threads m !! k) as [[| | i | i | i |] |] eqn:Hk; try done.
    destruct (segments m !! i) as [si |] eqn:Hi; [| done].
    destruct ok; [| rewrite Hsh in H]; simplify_eq/=.
    + split.
      * apply (downloading_held_step _ _ _ _ _ _ HA Hk).
        intros i' s Hi' Hs. destruct (decide (i' = i)) as [-> | Hne].
        -- left. by right.
        -- right. exists s. split_and!; [done | done | congruence | done].
      * apply (pending_held_step _ _ _ _ _ _ HB Hk).
        -- intros [? | ?]; done.
        -- intros i' s Hi' Hs. right. exists s. by split_and!.
    + split.
      * apply (downloading_held_step _ _ _ _ _ _ HA Hk).
        intros i' s Hi' Hs.
        destruct (alter_lookup_inv _ _ _ _ _ Hi') as (s0 & Hi0 & [[-> ->] | [Hne ->]]);
          [done |].
        right. exists s0. split_and!; [done | done | congruence | done].
      * apply (pending_held_step _ _ _ _ _ _ HB Hk).
        -- intros [? | ?]; done.
        -- intros i' s Hi' Hs.
           destruct (alter_lookup_inv _ _ _ _ _ Hi') as (s0 & Hi0 & [[-> ->] | [Hne ->]]);
             [done |].
           right. exists s0. by split_and!.
  - (* Chunk *)
    destruct (threads m !! k) as [[| | i | i | i |] |] eqn:Hk; try done.
    destruct (segments m !! i) as [si |] eqn:Hi; [| done].
    destruct data as [| c data]; simpl in H, Hsh'.
    + rewrite Hsh in H. by simplify_eq/=.
    + simpl in H. rewrite Hsh in H. by simplify_eq/=.
  - (* EndOfBody *)
    destruct (threads m !! k) as [[| | i | i | i |] |] eqn:Hk; try done.
    simplify_eq/=. split.
    + apply (downloading_held_step _ _ _ _ _ _ HA Hk).
      intros i' s Hi' Hs.
      destruct (alter_lookup_inv _ _ _ _ _ Hi') as (s0 & Hi0 & [[-> ->] | [Hne ->]]);
        [done |].
      right. exists s0. split_and!; [done | done | done | congruence].
    + apply (pending_held_step _ _ _ _ _ _ HB Hk).
      * intros [? | ?]; done.
      * intros i' s Hi' Hs.
        destruct (alter_lookup_inv _ _ _ _ _ Hi') as (s0 & Hi0 & [[-> ->] | [Hne ->]]);
          [done |].
        right. exists s0. by split_and!.
  - (* Broken *)
    destruct (threads m !! k) as [[| | i | i | i |] |] eqn:Hk; try done.
    rewrite Hsh in H. simplify_eq/=. split.
    + apply (downloading_held_step _ _ _ _ _ _ HA Hk).
      intros i' s Hi' Hs.
      destruct (alter_lookup_inv _ _ _ _ _ Hi') as (s0 & Hi0 & [[-> ->] | [Hne ->]]);
        [done |].
      right. exists s0. split_and!; [done | done | done | congruence].
    + apply (pending_held_step _ _ _ _ _ _ HB Hk).
      * intros [? | ?]; done.
      * intros i' s Hi' Hs.
        destruct (alter_lookup_inv _ _ _ _ _ Hi') as (s0 & Hi0 & [[-> ->] | [Hne ->]]);
          [done |].
        right. exists s0. by split_and!.
Qed.

Lemma run_drain_inv sched st st' :
  run sched st = Some st' → drain_inv st → drain_inv st'.
Proof.
  revert st. induction sched as [| a rest IH]; intros st H Hinv; simpl in H.
  - by simplify_eq.
  - destruct (step a st) as [st1 |] eqn:E; [| done].
    apply (IH _ H). by eapply step_drain_inv.
Qed.

Lemma step_threads_length a st st' :
  step a st = Some st' → length (threads st'.1) = length (threads st.1).
Proof.
  destruct st as [m w]. unfold step, worker_exception, get_next_segment.
  intros H.
  destruct a; repeat case_match; simplify_eq/=; by rewrite ?length_insert.
Qed.

Lemma run_threads_length sched st st' :
  run sched st = Some st' → length (threads st'.1) = length (threads st.1).
Proof.
  revert st. induction sched as [| a rest IH]; intros st H; simpl in H.
  - by simplify_eq.
  - destruct (step a st) as [st1 |] eqn:E; [| done].
    rewrite (IH _ H). by eapply step_threads_length.
Qed.

Lemma all_exited_lookup (thr : list Worker) (k : nat) t :
  all_exited thr = true → thr !! k = Some t → t = WExited.
Proof.
  unfold all_exited. revert k.
  induction thr as [| x rest IH]; intros k Hall Hk; [done |].
  simpl in Hall. apply andb_true_iff in Hall as [Hx Hrest].
  destruct k as [| k]; simpl in Hk.
  - simplify_eq. by apply bool_decide_eq_true in Hx.
  - by apply (IH k).
Qed.

Lemma start_download_fresh `{PathPlanner} (fs n : Z) p part (w : World) st1 :
  start_download (Some fs) (Manager_init n p part, w) = inr st1 →
  ∃ segs,
    create_initial_segments fs n = Some segs
    ∧ segments st1.1 = segs
    ∧ threads st1.1 = replicate (Z.to_nat n) WLoop
    ∧ shutdown st1.2 = false
    ∧ parts st1.2 = parts w.
Proof.
  unfold start_download. simpl.
  destruct (shutdown w) eqn:Hsh; [done |].
  destruct (create_initial_segments fs n) as [segs |] eqn:E; [| done].
  intros [= <-]. exists segs. by split_and!.
Qed.

Lemma create_initial_segments_pending (fs n : Z) segs :
  create_initial_segments fs n = Some segs →
  ∀ s, s ∈ segs → seg_status s = PENDING.
Proof.
  unfold create_initial_segments. destruct (n =? 0); [done |].
  intros [= <-] s (z & -> & _)%list_elem_of_fmap. done.
Qed.

Lemma start_download_drain_inv `{PathPlanner} (fs n : Z) p part (w : World) st1 :
  start_download (Some fs) (Manager_init n p part, w) = inr st1 → drain_inv st1.
Proof.
  intros Hstart.
  destruct (start_download_fresh _ _ _ _ _ _ Hstart) as (segs & Hc & Hsegs & Hthr & _ & _).
  intros _. split.
  - intros i s0 Hi Hd. rewrite Hsegs in Hi.
    apply list_elem_of_lookup_2 in Hi.
    by rewrite (create_initial_segments_pending _ _ _ Hc s0 Hi) in Hd.
  - intros (k & Hk). rewrite Hthr in Hk.
    destruct Hk as [Hk | Hk]; apply lookup_replicate in Hk as [? _]; done.
Qed.

Lemma drain_inv_settled (m : Manager) (w : World) :
  drain_inv (m, w) → shutdown w = false →
  all_exited (threads m) = true → (0 < length (threads m))%nat →
  ∀ s, s ∈ segments m → seg_status s = COMPLETED ∨ seg_status s = FAILED.
Proof.
  intros Hinv Hsh Hex Hlen s Hs.
  destruct (Hinv Hsh) as [HA HB]. simpl in HA, HB.
  apply list_elem_of_lookup in Hs as (i & Hi).
  destruct (threads m !! 0%nat) as [t0 |] eqn:H0.
  2: { apply lookup_ge_None in H0. lia. }
  pose proof (all_exited_lookup _ _ _ Hex H0) as ->.
  destruct (seg_status s) eqn:Hst; [| | by left | by right].
  - destruct (HB (ex_intro _ 0%nat (or_intror H0)) i s Hi Hst) as (k & Hk).
    by apply (all_exited_lookup _ _ _ Hex) in Hk.
  - destruct (HA i s Hi Hst) as (k & [Hk | Hk]);
      by apply (all_exited_lookup _ _ _ Hex) in Hk.
Qed.

Lemma run_fresh_threads `{PathPlanner} (fs n : Z) p part (w : World) sched st1 st4 :
  start_download (Some fs) (Manager_init n p part, w) = inr st1 →
  run sched st1 = Some st4 →
  length (threads st4.1) = Z.to_nat n.
Proof.
  intros Hstart Hrun.
  destruct (start_download_fresh _ _ _ _ _ _ Hstart) as (segs & _ & _ & Hthr & _ & _).
  rewrite (run_threads_length _ _ _ Hrun), Hthr. apply length_replicate.
Qed.

(** X10. In a download by a fresh manager with at least one thread, when
    all threads have ended and there was no shutdown, every segment is
    Completed or Failed: none is left Pending or Downloading. *)
Theorem joined_segments_settled `{PathPlanner} (fs n : Z) p part (w : World)
    sched st1 (m4 : Manager) (w4 : World) :
  1 ≤ n →
  start_download (Some fs) (Manager_init n p part, w) = inr st1 →
  run sched st1 = Some (m4, w4) →
  all_exited (threads m4) = true →
  shutdown w4 = false →
  ∀ s, s ∈ segments m4 → seg_status s = COMPLETED ∨ seg_status s = FAILED.
Proof.
  intros Hn Hstart Hrun Hex Hsh.
  apply (drain_inv_settled m4 w4); try done.
  - apply (run_drain_inv _ _ _ Hrun). by eapply start_download_drain_inv.
  - pose proof (run_fresh_threads _ _ _ _ _ _ _ _ Hstart Hrun) as Hl. simpl in Hl. lia.
Qed.

Lemma joined_segments_settled_witness :
  ∃ st1 m4 w4,
    1 ≤ 2
    ∧ @start_download plain_planner (Some 10)
        (Manager_init 2 (Build_PathFmt "" "" "") false, World_init) = inr st1
    ∧ run [Step 0; Step 1; Step 0; Step 1; Respond 0 true; Respond 1 false;
           EndOfBody 0; Step 1; Step 1; Respond 1 false; Step 0; Step 0; Step 1; Step 1]%nat
          st1 = Some (m4, w4)
    ∧ all_exited (threads m4) = true
    ∧ shutdown w4 = false
    ∧ ∀ s, s ∈ segments m4 → seg_status s = COMPLETED ∨ seg_status s = FAILED.
Proof.
  destruct (@start_download plain_planner (Some 10)
              (Manager_init 2 (Build_PathFmt "" "" "") false, World_init))
    as [r | st1] eqn:Hstart; [vm_compute in Hstart; discriminate Hstart |].
  destruct (run [Step 0; Step 1; Step 0; Step 1; Respond 0 true; Respond 1 false;
           EndOfBody 0; Step 1; Step 1; Respond 1 false; Step 0; Step 0; Step 1; Step 1]%nat
          st1) as [[m4 w4] |] eqn:Hrun.
  2: { vm_compute in Hstart. injection Hstart as <-. vm_compute in Hrun. discriminate Hrun. }
  assert (Hex : all_exited (threads m4) = true ∧ shutdown w4 = false).
  { vm_compute in Hstart. injection Hstart as <-.
    vm_compute in Hrun. injection Hrun as <- <-. split; reflexivity. }
  destruct Hex as [Hex Hsh]. assert (H1 : 1 ≤ 2) by lia.
  exists st1, m4, w4.
  split; [exact H1 |]. split; [reflexivity |]. split; [exact Hrun |].
  split; [exact Hex |]. split; [exact Hsh |].
  exact (@joined_segments_settled plain_planner 10 2 _ _ _ _ _ _ _ H1 Hstart Hrun Hex Hsh).
Defined.

(** ** Part files of the segments *)










(** ** The paths of [download] *)

Lemma substring_all (s : string) : substring 0 (String.length s) s = s.
Proof. induction s as [| c s IH]; simpl; [done | by rewrite IH]. Qed.

Lemma substring_split (s : string) (n : nat) :
  (n ≤ String.length s)%nat →
  String.append (substring 0 n s) (substring n (String.length s - n) s) = s.
Proof.
  revert n. induction s as [| c s IH]; intros n Hn; simpl in Hn.
  - by replace n with 0%nat by lia.
  - destruct n as [| n]; simpl.
    + by rewrite substring_all.
    + change (String c (String.append (substring 0 n s)
                         (substring n (String.length s - n) s)) = String c s).
      f_equal. apply IH. lia.
Qed.

Lemma endswith_drop_last5 (s : string) :
  endswith ".part" s = true → String.append (drop_last5 s) ".part" = s.
Proof.
  unfold endswith, drop_last5. intros H.
  apply andb_true_iff in H as [Hlen Heq].
  apply Nat.leb_le in Hlen. apply String.eqb_eq in Heq.
  change (String.length ".part") with 5%nat in *.
  pose proof (substring_split s (String.length s - 5)) as Hsplit.
  replace (String.length s - (String.length s - 5))%nat with 5%nat in Hsplit by lia.
  rewrite Heq in Hsplit. apply Hsplit. lia.
Qed.

(** X14. When [temppath] is set on entry, [download] leaves it as it is;
    if it and [realpath] both end in ".part", [realpath] becomes [temppath]
    without that suffix and [path] is set to it; otherwise the paths are
    left as they were. *)
Theorem setup_pathfmt_strips_part `{PathPlanner} (part : bool) (p : PathFmt) :
  temppath p ≠ EmptyString →
  temppath (setup_pathfmt part p) = temppath p
  ∧ (endswith ".part" (temppath p) = true → endswith ".part" (realpath p) = true →
       String.append (realpath (setup_pathfmt part p)) ".part" = temppath p
       ∧ path (setup_pathfmt part p) = realpath (setup_pathfmt part p))
  ∧ (endswith ".part" (temppath p) && endswith ".part" (realpath p) = false →
       setup_pathfmt part p = p).
Proof.
  intros Ht. unfold setup_pathfmt.
  rewrite (bool_decide_eq_false_2 _ Ht).
  destruct (endswith ".part" (temppath p)) eqn:E1;
    destruct (endswith ".part" (realpath p)) eqn:E2; simpl.
  - split_and!; [done | | done]. intros _ _. split; [| done].
    by apply endswith_drop_last5.
  - split_and!; done.
  - split_and!; done.
  - split_and!; done.
Qed.

Lemma setup_pathfmt_strips_part_witness :
  temppath (Build_PathFmt "/tmp/file.part" "/tmp/file.part" "/tmp/file.part") ≠ EmptyString
  ∧ realpath (@setup_pathfmt plain_planner false
                (Build_PathFmt "/tmp/file.part" "/tmp/file.part" "/tmp/file.part"))
    = "/tmp/file"%string
  ∧ temppath (@setup_pathfmt plain_planner false
                (Build_PathFmt "/tmp/file.part" "/tmp/file.part" "/tmp/file.part"))
    = "/tmp/file.part"%string.
Proof.
  assert (Ht : temppath (Build_PathFmt "/tmp/file.part" "/tmp/file.part" "/tmp/file.part")
               ≠ EmptyString) by discriminate.
  split; [exact Ht |]. split; [reflexivity |].
  exact (proj1 (@setup_pathfmt_strips_part plain_planner false _ Ht)).
Defined.

(** ** Requests and claims over a run *)

Lemma step_requests a st st' :
  step a st = Some st' →
  ∃ new,
    requests st'.2 = requests st.2 ++ new
    ∧ ∀ r, r ∈ new →
        ∃ (i : nat) s, segments st'.1 !! i = Some s ∧ r = GET (seg_start s) (seg_end s).
Proof.
  destruct st as [m w]. unfold step, worker_exception, get_next_segment.
  intros H.
  assert (Hnone : ∀ segs : list Segment,
            ∃ new, requests w = requests w ++ new
              ∧ ∀ r, r ∈ new →
                  ∃ (i : nat) s, segs !! i = Some s ∧ r = GET (seg_start s) (seg_end s)).
  { intros segs. exists []. rewrite app_nil_r. split; [done |].
    intros r Hin. by apply elem_of_nil in Hin. }
  destruct a as [| k | k ok | k data | k | k]; simpl in H.
  - simplify_eq. by apply Hnone.
  - destruct (threads m !! k) as [[| | i | i | i |] |]; try done.
    + destruct (shutdown w); simplify_eq/=; by apply Hnone.
    + destruct (split_largest_segment (segments m)) as [[j |] t];
        simplify_eq/=; by apply Hnone.
    + destruct (segments m !! i) as [si |] eqn:Hi; simplify_eq/=.
      exists [GET (seg_start si) (seg_end si)]. split; [done |].
      intros r ->%list_elem_of_singleton.
      exists i, (set_status DOWNLOADING si). split; [| done].
      by rewrite list_lookup_alter_eq, Hi.
  - destruct (threads m !! k) as [[| | i | i | i |] |]; try done.
    destruct (segments m !! i); [| done].
    destruct ok; [| destruct (shutdown w)]; simplify_eq/=; by apply Hnone.
  - destruct (threads m !! k) as [[| | i | i | i |] |]; try done.
    destruct (segments m !! i); [| done].
    destruct data; simpl in H; destruct (shutdown w); simplify_eq/=; by apply Hnone.
  - destruct (threads m !! k) as [[| | i | i | i |] |]; try done.
    simplify_eq/=. by apply Hnone.
  - destruct (threads m !! k) as [[| | i | i | i |] |]; try done.
    destruct (shutdown w); simplify_eq/=; by apply Hnone.
Qed.

(** X15. Every request the workers send is a GET whose range begins at
    the start of a segment of the table and ends at or after the end that
    segment has when the threads are done: a split that shrinks a segment
    later does not shorten the request already sent for it. *)
Theorem requests_cover_segments (fs : Z) sched st st' :
  ranges_inv fs (segments st.1) →
  run sched st = Some st' →
  ∃ new,
    requests st'.2 = requests st.2 ++ new
    ∧ ∀ r, r ∈ new →
        ∃ (i : nat) s a b,
          r = GET a b ∧ segments st'.1 !! i = Some s
          ∧ seg_start s = a ∧ seg_end s ≤ b.
Proof.
  revert st. induction sched as [| a rest IH]; intros st Hinv H; simpl in H.
  - simplify_eq. exists []. rewrite app_nil_r. split; [done |].
    intros r Hin. by apply elem_of_nil in Hin.
  - destruct (step a st) as [st1 |] eqn:E; [| done].
    pose proof (step_ranges_inv fs a st st1 E Hinv) as Hinv1.
    destruct (step_requests _ _ _ E) as (n1 & Hr1 & Hn1).
    destruct (IH st1 Hinv1 H) as (n2 & Hr2 & Hn2).
    exists (n1 ++ n2). split; [by rewrite Hr2, Hr1, app_assoc |].
    intros r [Hin | Hin]%elem_of_app; [| by apply Hn2].
    destruct (Hn1 r Hin) as (i & s & Hi & ->).
    destruct (run_keeps_segment fs _ _ _ i s Hinv1 H Hi) as (s' & Hi' & Hst & Hend).
    by exists i, s', (seg_start s), (seg_end s).
Qed.

Lemma requests_cover_segments_witness :
  let t := [Segment_init 0 4194303 PENDING] in
  let st := (Build_Manager t [WLoop; WLoop] 4194304 2 0
               (Build_PathFmt "/tmp/f.part" "/tmp/f" "/tmp/f") false, World_init) in
  ∃ st',
    ranges_inv 4194304 (segments st.1)
    ∧ run [Step 0; Step 0; Step 1; Step 1; Step 1]%nat st = Some st'
    ∧ requests st'.2 = [GET 0 4194303; GET 2097153 4194303]
    ∧ ∃ new, requests st'.2 = requests st.2 ++ new
        ∧ ∀ r, r ∈ new →
            ∃ (i : nat) s a b,
              r = GET a b ∧ segments st'.1 !! i = Some s
              ∧ seg_start s = a ∧ seg_end s ≤ b.
Proof.
  intros t st.
  assert (Hinv : ranges_inv 4194304 (segments st.1)).
  { split_and!.
    - apply Forall_singleton. reflexivity.
    - apply Forall_singleton. unfold nonempty. simpl. lia.
    - intros b. apply chain_cover_count.
      apply chain_cons; [reflexivity | simpl; lia | reflexivity |].
      change (seg_end (set_status PENDING (Segment_init 0 4194303 PENDING)) + 1)
        with 4194304.
      constructor. }
  destruct (run [Step 0; Step 0; Step 1; Step 1; Step 1]%nat st) as [st' |] eqn:Hrun;
    [| vm_compute in Hrun; discriminate Hrun].
  exists st'. split; [exact Hinv |]. split; [first [exact Hrun | reflexivity] |].
  split; [vm_compute in Hrun; injection Hrun as <-; reflexivity |].
  exact (requests_cover_segments 4194304 _ st st' Hinv Hrun).
Defined.

Lemma step_not_pending a st st' (i : nat) s :
  step a st = Some st' →
  segments st.1 !! i = Some s → seg_status s ≠ PENDING →
  ∃ s', segments st'.1 !! i = Some s' ∧ seg_status s' ≠ PENDING.
Proof.
  intros H Hi Hs.
  destruct (step_segments _ _ _ H) as [-> | [(i0 & x & Hx & ->) | (j & E)]].
  - by exists s.
  - destruct (decide (i = i0)) as [-> | Hne].
    + rewrite list_lookup_alter_eq, Hi. by eexists.
    + rewrite list_lookup_alter_ne by done. by exists s.
  - apply split_largest_segment_some in E as (i0 & l & Hi0 & Hl & _ & _ & _ & ->).
    rewrite lookup_app_l by (rewrite length_insert; by eapply lookup_lt_Some).
    destruct (decide (i = i0)) as [-> | Hne].
    + rewrite list_lookup_insert_eq by (by eapply lookup_lt_Some).
      simplify_eq. by eexists.
    + rewrite list_lookup_insert_ne by done. by exists s.
Qed.

(** X16. A segment that is no longer Pending never becomes Pending again,
    whatever the workers do; so once [_download_segment] has written
    Downloading, [_get_next_segment] never returns that segment. *)
Theorem claimed_segment_not_returned sched st st' (i : nat) s :
  run sched st = Some st' →
  segments st.1 !! i = Some s → seg_status s ≠ PENDING →
  (∃ s', segments st'.1 !! i = Some s' ∧ seg_status s' ≠ PENDING)
  ∧ fst (get_next_segment (segments st'.1)) ≠ Some i.
Proof.
  intros H Hi Hs.
  assert (Hkeep : ∃ s', segments st'.1 !! i = Some s' ∧ seg_status s' ≠ PENDING).
  { revert st s H Hi Hs. induction sched as [| a rest IH]; intros st s H Hi Hs; simpl in H.
    - simplify_eq. by exists s.
    - destruct (step a st) as [st1 |] eqn:E; [| done].
      destruct (step_not_pending _ _ _ i s E Hi Hs) as (s1 & Hi1 & Hs1).
      by apply (IH st1 s1). }
  split; [done |]. destruct Hkeep as (s' & Hi' & Hs').
  intros Hget.
  apply (proj1 (proj1 (proj2 (get_next_segment_first_pending _)) i)) in Hget
    as (s2 & Hi2 & Hp & _).
  congruence.
Qed.

Lemma claimed_segment_not_returned_witness :
  let st := (Build_Manager [Segment_init 0 4 PENDING; Segment_init 5 9 PENDING]
               [WAssigned 0; WLoop] 10 2 0 (Build_PathFmt "/tmp/f.part" "/tmp/f" "/tmp/f") false,
             World_init) in
  ∃ st1 st',
    run [Step 0]%nat st = Some st1
    ∧ segments st1.1 !! 0%nat = Some (Segment_init 0 4 DOWNLOADING)
    ∧ run [Step 1; Respond 0 true; EndOfBody 0]%nat st1 = Some st'
    ∧ fst (get_next_segment (segments st'.1)) ≠ Some 0%nat.
Proof.
  intros st.
  destruct (run [Step 0]%nat st) as [st1 |] eqn:Hrun1;
    [| vm_compute in Hrun1; discriminate Hrun1].
  assert (Hi : segments st1.1 !! 0%nat = Some (Segment_init 0 4 DOWNLOADING))
    by (vm_compute in Hrun1; injection Hrun1 as <-; reflexivity).
  destruct (run [Step 1; Respond 0 true; EndOfBody 0]%nat st1) as [st' |] eqn:Hrun.
  2: { vm_compute in Hrun1. injection Hrun1 as <-. vm_compute in Hrun. discriminate Hrun. }
  exists st1, st'. split; [reflexivity |]. split; [exact Hi |]. split; [exact Hrun |].
  assert (Hs : seg_status (Segment_init 0 4 DOWNLOADING) ≠ PENDING) by discriminate.
  exact (proj2 (claimed_segment_not_returned _ st1 st' 0 _ Hrun Hi Hs)).
Defined.

(** ** The end of the threads after an interrupt *)

Lemma total_left_insert (thr : list Worker) (k : nat) t0 t1 :
  thr !! k = Some t0 →
  (total_left (<[k := t1]> thr) + steps_left t0 = total_left thr + steps_left t1)%nat.
Proof.
  revert k. induction thr as [| t rest IH]; intros [| k] Hk; simplify_eq/=.
  - lia.
  - specialize (IH k Hk). lia.
Qed.

Lemma total_left_bound (thr : list Worker) : (total_left thr ≤ 5 * length thr)%nat.
Proof.
  induction thr as [| t rest IH]; simpl; [lia |]. destruct t; simpl; lia.
Qed.

Lemma step_after_shutdown a st st' :
  shutdown st.2 = true →
  step a st = Some st' →
  (total_left (threads st'.1) + worker_actions [a] ≤ total_left (threads st.1))%nat.
Proof.
  destruct st as [m w]. simpl. intros Hsh H.
  unfold step, worker_exception in H. rewrite ?Hsh in H.
  assert (Hdec : ∀ (k : nat) t0 t1, threads m !! k = Some t0 →
            (steps_left t1 < steps_left t0)%nat →
            (total_left (<[k := t1]> (threads m)) + 1 ≤ total_left (threads m))%nat).
  { intros k t0 t1 Hk Hlt. pose proof (total_left_insert _ _ _ t1 Hk). lia. }
  destruct a as [| k | k ok | k data | k | k]; simpl in H.
  - simplify_eq. simpl. lia.
  - destruct (threads m !! k) as [[| | i | i | i |] |] eqn:Hk; try done.
    + rewrite ?Hsh in H. simplify_eq/=. apply (Hdec k _ _ Hk). simpl. lia.
    + destruct (split_largest_segment (segments m)) as [[j |] t]; simplify_eq/=;
        apply (Hdec k _ _ Hk); simpl; lia.
    + destruct (segments m !! i); simplify_eq/=. apply (Hdec k _ _ Hk). simpl. lia.
  - destruct (threads m !! k) as [[| | i | i | i |] |] eqn:Hk; try done.
    destruct (segments m !! i); [| done].
    destruct ok; [| rewrite ?Hsh in H]; simplify_eq/=; apply (Hdec k _ _ Hk); simpl; lia.
  - destruct (threads m !! k) as [[| | i | i | i |] |] eqn:Hk; try done.
    destruct (segments m !! i); [| done].
    destruct data; simpl in H; rewrite ?Hsh in H; simpl in H; rewrite ?Hsh in H;
      simplify_eq/=;
      apply (Hdec k _ _ Hk); simpl; lia.
  - destruct (threads m !! k) as [[| | i | i | i |] |] eqn:Hk; try done.
    simplify_eq/=. apply (Hdec k _ _ Hk). simpl. lia.
  - destruct (threads m !! k) as [[| | i | i | i |] |] eqn:Hk; try done.
    rewrite ?Hsh in H. simplify_eq/=. apply (Hdec k _ _ Hk). simpl. lia.
Qed.

(** X17. Once the shutdown event is set the workers come to an end: each
    action of a worker brings it nearer to its exit, a worker takes at most
    five more actions, and the threads together at most five times their
    number, however the network answers. *)
Theorem shutdown_bounds_run sched st st' :
  shutdown st.2 = true →
  run sched st = Some st' →
  (total_left (threads st'.1) + worker_actions sched ≤ total_left (threads st.1))%nat
  ∧ (worker_actions sched ≤ 5 * length (threads st.1))%nat.
Proof.
  intros Hsh H.
  assert (Hdec : (total_left (threads st'.1) + worker_actions sched
                  ≤ total_left (threads st.1))%nat).
  { revert st Hsh H. induction sched as [| a rest IH]; intros st Hsh H; simpl in H.
    - simplify_eq. simpl. lia.
    - destruct (step a st) as [st1 |] eqn:E; [| done].
      pose proof (step_after_shutdown _ _ _ Hsh E) as H1.
      pose proof (IH st1 (step_shutdown_stays _ _ _ E Hsh) H) as H2.
      destruct a; simpl in *; lia. }
  split; [done |]. pose proof (total_left_bound (threads st.1)). lia.
Qed.

Lemma shutdown_bounds_run_witness :
  let st := (Build_Manager [Segment_init 0 4 DOWNLOADING; Segment_init 5 9 PENDING]
               [WStreaming 0; WLoop] 10 2 0 (Build_PathFmt "/tmp/f.part" "/tmp/f" "/tmp/f") false,
             set_shutdown (set_parts (<[0 := []]> ∅) World_init)) in
  ∃ st',
    shutdown st.2 = true
    ∧ run [Chunk 0 [Byte.x41]; Step 0; Step 1]%nat st = Some st'
    ∧ all_exited (threads st'.1) = true
    ∧ (worker_actions [Chunk 0 [Byte.x41]; Step 0; Step 1]%nat ≤ 5 * length (threads st.1))%nat.
Proof.
  intros st.
  assert (Hsh : shutdown st.2 = true) by reflexivity.
  destruct (run [Chunk 0 [Byte.x41]; Step 0; Step 1]%nat st) as [st' |] eqn:Hrun;
    [| vm_compute in Hrun; discriminate Hrun].
  exists st'. split; [exact Hsh |]. split; [first [exact Hrun | reflexivity] |].
  split; [vm_compute in Hrun; injection Hrun as <-; reflexivity |].
  exact (proj2 (shutdown_bounds_run _ st st' Hsh Hrun)).
Defined.

(** ** Repeated interrupts *)



(** ** What a successful download has done *)


